(** * lossyqoi: the lossy QOI encoder of [lossyqoi.c]

    A shallow embedding of the encoder state machine ([qoi_encoder_init],
    [qoi_color_hash], [qoi_px_near], [qoi_write_pixel], header, footer and
    the pixel loop of [convert_to_qoi]) and the properties its
    specification states about it.

    Conventions.  A [uint8_t] is a [Z] in [0, 255]; a cast to [uint8_t] is
    [u8].  An [int] is a [Z]: the only [int] the encoder changes is the run
    counter, which stays in [0, 61] (lemma [run_bounded]), so no wrap-around
    is written for it.  The operands of [%] in [qoi_color_hash] are never
    negative, where C's remainder and [Z.modulo] agree.  The [FILE] the
    encoder writes to is append-only; every function that writes returns
    the bytes it appended, in order.  [stbi_load] is outside the program:
    its result is the [image] record, or [None] when it fails. *)

From Stdlib Require Import ZArith List Bool Lia.
From Stdlib Require String.
Import ListNotations.
Local Open Scope Z_scope.

(** ** Data model *)

Definition QOI_OP_INDEX : Z := 0x00.
Definition QOI_OP_DIFF  : Z := 0x40.
Definition QOI_OP_LUMA  : Z := 0x80.
Definition QOI_OP_RUN   : Z := 0xc0.
Definition QOI_OP_RGB   : Z := 0xfe.
Definition QOI_OP_RGBA  : Z := 0xff.

(** Conversion to [uint8_t]. *)
Definition u8 (x : Z) : Z := x mod 256.

(** [typedef struct { uint8_t r, g, b, a; } qoi_rgba;] *)
Record qoi_rgba : Type := mk_rgba { r : Z; g : Z; b : Z; a : Z }.

(** The values a [qoi_rgba] can hold. *)
Definition px_ok (px : qoi_rgba) : Prop :=
  0 <= r px <= 255 /\ 0 <= g px <= 255 /\ 0 <= b px <= 255 /\ 0 <= a px <= 255.

(** [memcmp(&p, &q, sizeof(qoi_rgba)) == 0] *)
Definition px_eqb (p q : qoi_rgba) : bool :=
  (r p =? r q) && (g p =? g q) && (b p =? b q) && (a p =? a q).

(** [typedef struct { FILE *file; int run; qoi_rgba prev_px, index[64];
    int lossiness; } qoi_encoder;]  The [file] handle never changes and
    is left out; [index] is a list of 64 slots. *)
Record qoi_encoder : Type := mk_encoder {
  run : Z;
  prev_px : qoi_rgba;
  index : list qoi_rgba;
  lossiness : Z
}.

Definition zero_px : qoi_rgba := mk_rgba 0 0 0 0.

(** [enc->index[i]] and [enc->index[i] = px]. *)
Definition index_get (idx : list qoi_rgba) (i : Z) : qoi_rgba :=
  nth (Z.to_nat i) idx zero_px.

Fixpoint list_set (l : list qoi_rgba) (n : nat) (px : qoi_rgba) : list qoi_rgba :=
  match l, n with
  | [], _ => []
  | _ :: t, O => px :: t
  | h :: t, S n' => h :: list_set t n' px
  end.

Definition index_set (idx : list qoi_rgba) (i : Z) (px : qoi_rgba) : list qoi_rgba :=
  list_set idx (Z.to_nat i) px.

Definition set_run (enc : qoi_encoder) (n : Z) : qoi_encoder :=
  mk_encoder n (prev_px enc) (index enc) (lossiness enc).

(** ** The encoder *)

(** [qoi_encoder_init]: [memset] to zero, then alpha 255 and the threshold. *)
Definition qoi_encoder_init (lossy : Z) : qoi_encoder :=
  mk_encoder 0 (mk_rgba 0 0 0 255) (repeat zero_px 64) lossy.

(** [qoi_color_hash] *)
Definition qoi_color_hash (px : qoi_rgba) : Z :=
  (r px * 3 + g px * 5 + b px * 7 + a px * 11) mod 64.

(** [qoi_px_near] *)
Definition qoi_px_near (p q : qoi_rgba) (threshold : Z) : bool :=
  (Z.abs (r p - r q) <=? threshold) &&
  (Z.abs (g p - g q) <=? threshold) &&
  (Z.abs (b p - b q) <=? threshold) &&
  (a p =? a q).

(** The bytes of the standard QOI part of [qoi_write_pixel] once the cache
    lookup has missed: DIFF, LUMA, RGB or RGBA against [prev]. *)
Definition diff_bytes (prev px : qoi_rgba) : list Z :=
  let dr := r px - r prev in
  let dg := g px - g prev in
  let db := b px - b prev in
  let da := a px - a prev in
  if (da =? 0) && (-2 <=? dr) && (dr <=? 1) &&
     (-2 <=? dg) && (dg <=? 1) && (-2 <=? db) && (db <=? 1) then
    [ u8 (Z.lor (Z.lor (Z.lor QOI_OP_DIFF (Z.shiftl (dr + 2) 4))
                       (Z.shiftl (dg + 2) 2)) (db + 2)) ]
  else if (da =? 0) && (-32 <=? dg) && (dg <=? 31) &&
          (-8 <=? dr - dg) && (dr - dg <=? 7) &&
          (-8 <=? db - dg) && (db - dg <=? 7) then
    [ u8 (Z.lor QOI_OP_LUMA (dg + 32));
      u8 (Z.lor (Z.shiftl (dr - dg + 8) 4) (db - dg + 8)) ]
  else if a px =? a prev then
    [ u8 QOI_OP_RGB; r px; g px; b px ]
  else
    [ u8 QOI_OP_RGBA; r px; g px; b px; a px ].

(** The pending-run flush of [qoi_write_pixel] and of the end of
    [convert_to_qoi]: [if (run > 0) { op = QOI_OP_RUN | (run - 1); ... }]. *)
Definition flush_bytes (n : Z) : list Z :=
  if 0 <? n then [ u8 (Z.lor QOI_OP_RUN (n - 1)) ] else [].

(** [qoi_write_pixel]: the new encoder state and the bytes written. *)
Definition qoi_write_pixel (enc : qoi_encoder) (px : qoi_rgba)
  : qoi_encoder * list Z :=
  if qoi_px_near px (prev_px enc) (lossiness enc) then
    let enc1 := set_run enc (run enc + 1) in
    if run enc1 =? 62 then
      (set_run enc1 0, [ u8 (Z.lor QOI_OP_RUN 61) ])
    else (enc1, [])
  else
    let out1 := flush_bytes (run enc) in
    let run1 := if 0 <? run enc then 0 else run enc in
    let index_pos := qoi_color_hash px in
    if px_eqb (index_get (index enc) index_pos) px then
      (mk_encoder run1 px (index enc) (lossiness enc),
       out1 ++ [ u8 (Z.lor QOI_OP_INDEX index_pos) ])
    else
      (mk_encoder run1 px (index_set (index enc) index_pos px) (lossiness enc),
       out1 ++ diff_bytes (prev_px enc) px).

(** The pixel loop of [convert_to_qoi]: every pixel in order. *)
Fixpoint write_pixels (enc : qoi_encoder) (pxs : list qoi_rgba)
  : qoi_encoder * list Z :=
  match pxs with
  | [] => (enc, [])
  | px :: rest =>
      let (enc1, out1) := qoi_write_pixel enc px in
      let (enc2, out2) := write_pixels enc1 rest in
      (enc2, out1 ++ out2)
  end.

(** The opcode stream of a pixel sequence: the loop, then the final flush
    ([if (enc.run > 0) ...] before the footer). *)
Definition encode_from (enc : qoi_encoder) (pxs : list qoi_rgba) : list Z :=
  let (enc1, out) := write_pixels enc pxs in
  out ++ flush_bytes (run enc1).

Definition encode_pixels (lossy : Z) (pxs : list qoi_rgba) : list Z :=
  encode_from (qoi_encoder_init lossy) pxs.

(** [qoi_write_header] and [qoi_write_footer]. *)
Definition qoi_write_header (width height channels : Z) : list Z :=
  [ 113; 111; 105; 102;
    u8 (Z.shiftr width 24); u8 (Z.shiftr width 16);
    u8 (Z.shiftr width 8); u8 width;
    u8 (Z.shiftr height 24); u8 (Z.shiftr height 16);
    u8 (Z.shiftr height 8); u8 height;
    u8 channels; 0 ].

Definition qoi_write_footer : list Z := [0; 0; 0; 0; 0; 0; 0; 1].

(** What [stbi_load] hands over: dimensions, channel count and the
    [width * height * channels] bytes of the raster. *)
Record image : Type := mk_image {
  width : Z; height : Z; channels : Z; data : list Z
}.

(** [data[i]] *)
Definition data_at (d : list Z) (i : Z) : Z := nth (Z.to_nat i) d 0.

(** The body of the pixel loop that builds [px] from [data]. *)
Definition load_pixel (img : image) (i : Z) : qoi_rgba :=
  let c := channels img in
  mk_rgba (data_at (data img) (i * c))
          (data_at (data img) (i * c + (if 1 <? c then 1 else 0)))
          (data_at (data img) (i * c + (if 2 <? c then 2 else 0)))
          (if c =? 4 then data_at (data img) (i * c + 3) else 255).

Definition image_pixels (img : image) : list qoi_rgba :=
  map (fun i => load_pixel img (Z.of_nat i))
      (seq 0 (Z.to_nat (width img * height img))).

(** [convert_to_qoi]: [None] when the image does not load or the output
    does not open (nothing is written), else the bytes of the file. *)
Definition convert_to_qoi (input : option image) (out_opens : bool)
    (lossy : Z) : option (list Z) :=
  match input with
  | None => None
  | Some img =>
      if out_opens then
        Some (qoi_write_header (width img) (height img) (channels img)
              ++ encode_pixels lossy (image_pixels img)
              ++ qoi_write_footer)
      else None
  end.

(** The run-absorption count: how many calls of [qoi_write_pixel] take the
    near branch (the pixel is merged into the pending run and no opcode of
    its own is written for it). *)
Fixpoint absorbed (enc : qoi_encoder) (pxs : list qoi_rgba) : nat :=
  match pxs with
  | [] => O
  | px :: rest =>
      ((if qoi_px_near px (prev_px enc) (lossiness enc) then 1 else 0)
       + absorbed (fst (qoi_write_pixel enc px)) rest)%nat
  end.

(** The encoder states that occur: after [qoi_encoder_init] and after every
    further call of [qoi_write_pixel]. *)
Inductive reachable (lossy : Z) : qoi_encoder -> Prop :=
| reach_init : reachable lossy (qoi_encoder_init lossy)
| reach_step : forall enc px,
    reachable lossy enc ->
    reachable lossy (fst (qoi_write_pixel enc px)).

(** ** The opcode format *)

(** Modelled from the spec: the opcode table of the output byte format
    (the tag bits and payload of INDEX, DIFF, LUMA, RUN, RGB and RGBA).
    The repository has no reader of its own output; the fields are
    extracted the way the QOI reference reader masks and shifts them. *)
Inductive opcode : Type :=
| INDEX (slot : Z)
| DIFF (vr vg vb : Z)
| LUMA (vg vrg vbg : Z)
| RUN (stored : Z)
| RGB (cr cg cb : Z)
| RGBA (cr cg cb ca : Z).

Inductive op_tag : Type := T_INDEX | T_DIFF | T_LUMA | T_RUN | T_RGB | T_RGBA.

(** Modelled from the spec: the tag of a first byte; the two literal bytes
    [0xFE] and [0xFF] win over the RUN tag bits. *)
Definition tag_of (b1 : Z) : op_tag :=
  if b1 =? QOI_OP_RGB then T_RGB
  else if b1 =? QOI_OP_RGBA then T_RGBA
  else if Z.land b1 0xc0 =? QOI_OP_INDEX then T_INDEX
  else if Z.land b1 0xc0 =? QOI_OP_DIFF then T_DIFF
  else if Z.land b1 0xc0 =? QOI_OP_LUMA then T_LUMA
  else T_RUN.

(** Modelled from the spec: the opcode stream cut into opcodes, first byte
    by first byte; a last opcode whose payload is cut short is dropped. *)
Fixpoint qoi_opcodes (bs : list Z) : list opcode :=
  match bs with
  | [] => []
  | b1 :: rest =>
      match tag_of b1 with
      | T_RGB =>
          match rest with
          | cr :: cg :: cb :: rest' => RGB cr cg cb :: qoi_opcodes rest'
          | _ => []
          end
      | T_RGBA =>
          match rest with
          | cr :: cg :: cb :: ca :: rest' => RGBA cr cg cb ca :: qoi_opcodes rest'
          | _ => []
          end
      | T_INDEX => INDEX (Z.land b1 0x3f) :: qoi_opcodes rest
      | T_DIFF =>
          DIFF (Z.land (Z.shiftr b1 4) 0x03) (Z.land (Z.shiftr b1 2) 0x03)
               (Z.land b1 0x03) :: qoi_opcodes rest
      | T_LUMA =>
          match rest with
          | b2 :: rest' =>
              LUMA (Z.land b1 0x3f) (Z.land (Z.shiftr b2 4) 0x0f)
                   (Z.land b2 0x0f) :: qoi_opcodes rest'
          | [] => []
          end
      | T_RUN => RUN (Z.land b1 0x3f) :: qoi_opcodes rest
      end
  end.

Definition is_run (op : opcode) : bool :=
  match op with RUN _ => true | _ => false end.

Definition is_diff_or_luma (op : opcode) : bool :=
  match op with DIFF _ _ _ | LUMA _ _ _ => true | _ => false end.

(** The number of bytes an opcode takes in the stream. *)
Definition op_size (op : opcode) : Z :=
  match op with
  | INDEX _ | DIFF _ _ _ | RUN _ => 1
  | LUMA _ _ _ => 2
  | RGB _ _ _ => 4
  | RGBA _ _ _ _ => 5
  end.

(** The run length a RUN opcode stands for: its stored value plus one. *)
Definition run_length (op : opcode) : Z :=
  match op with RUN stored => stored + 1 | _ => 0 end.

(** The lengths of the RUN opcodes of a stream, in order. *)
Definition run_lengths (ops : list opcode) : list Z :=
  map run_length (filter is_run ops).

Definition sum_Z (l : list Z) : Z := fold_right Z.add 0 l.

(** Modelled from the spec: the state of a reference QOI reader, the
    current pixel and its own 64-slot cache. *)
Record qoi_decoder : Type := mk_decoder {
  dec_px : qoi_rgba;
  dec_index : list qoi_rgba
}.

Definition qoi_decoder_init : qoi_decoder :=
  mk_decoder (mk_rgba 0 0 0 255) (repeat zero_px 64).

(** Modelled from the spec: the pixel an opcode stands for, given the
    reader's state; deltas are unbiased and added modulo 256. *)
Definition op_pixel (d : qoi_decoder) (op : opcode) : qoi_rgba :=
  let p := dec_px d in
  match op with
  | INDEX slot => index_get (dec_index d) slot
  | DIFF vr vg vb =>
      mk_rgba (u8 (r p + (vr - 2))) (u8 (g p + (vg - 2)))
              (u8 (b p + (vb - 2))) (a p)
  | LUMA vg vrg vbg =>
      let dg := vg - 32 in
      mk_rgba (u8 (r p + (dg - 8 + vrg))) (u8 (g p + dg))
              (u8 (b p + (dg - 8 + vbg))) (a p)
  | RUN _ => p
  | RGB cr cg cb => mk_rgba cr cg cb (a p)
  | RGBA cr cg cb ca => mk_rgba cr cg cb ca
  end.

(** Modelled from the spec: one opcode read by the reference reader.  The
    pixel becomes current and is stored in the reader's cache at its hash
    (after every opcode, RUN included); a RUN of stored value [n] yields
    [n + 1] copies, every other opcode one pixel. *)
Definition decode_op (d : qoi_decoder) (op : opcode)
  : qoi_decoder * list qoi_rgba :=
  let px := op_pixel d op in
  (mk_decoder px (index_set (dec_index d) (qoi_color_hash px) px),
   match op with
   | RUN stored => repeat px (Z.to_nat (stored + 1))
   | _ => [px]
   end).

Fixpoint decode_ops (d : qoi_decoder) (ops : list opcode) : list qoi_rgba :=
  match ops with
  | [] => []
  | op :: rest =>
      let (d1, out) := decode_op d op in
      out ++ decode_ops d1 rest
  end.

(** Modelled from the spec: the reference reader run over an opcode
    stream from its initial state (pixel (0,0,0,255), zeroed cache). *)
Definition qoi_decode (bs : list Z) : list qoi_rgba :=
  decode_ops qoi_decoder_init (qoi_opcodes bs).

(** The opcode [qoi_write_pixel] chooses on a cache miss, as the fields of
    the opcode table: the opcode-level reading of [diff_bytes]
    (lemma [opcodes_diff_bytes]). *)
Definition diff_op (prev px : qoi_rgba) : opcode :=
  let dr := r px - r prev in
  let dg := g px - g prev in
  let db := b px - b prev in
  let da := a px - a prev in
  if (da =? 0) && (-2 <=? dr) && (dr <=? 1) &&
     (-2 <=? dg) && (dg <=? 1) && (-2 <=? db) && (db <=? 1) then
    DIFF (dr + 2) (dg + 2) (db + 2)
  else if (da =? 0) && (-32 <=? dg) && (dg <=? 31) &&
          (-8 <=? dr - dg) && (dr - dg <=? 7) &&
          (-8 <=? db - dg) && (db - dg <=? 7) then
    LUMA (dg + 32) (dr - dg + 8) (db - dg + 8)
  else if a px =? a prev then RGB (r px) (g px) (b px)
  else RGBA (r px) (g px) (b px) (a px).

(** The opcode written for a pixel that fails the near test: INDEX on a
    cache hit, else [diff_op]. *)
Definition pixel_op (enc : qoi_encoder) (px : qoi_rgba) : opcode :=
  if px_eqb (index_get (index enc) (qoi_color_hash px)) px
  then INDEX (qoi_color_hash px)
  else diff_op (prev_px enc) px.

(** The RUN opcode that flushes a pending run of [n] pixels, if any. *)
Definition flush_ops (n : Z) : list opcode :=
  if 0 <? n then [RUN (n - 1)] else [].

(** [n] consecutive near pixels seen from the counter alone: the counter
    after them and the bytes written (a cap flush every 62 pixels). *)
Fixpoint near_steps (k : Z) (n : nat) : Z * list Z :=
  match n with
  | O => (k, [])
  | S n' =>
      if k + 1 =? 62
      then let (k', out) := near_steps 0 n' in
           (k', u8 (Z.lor QOI_OP_RUN 61) :: out)
      else near_steps (k + 1) n'
  end.

(** A bounded universal quantifier that computes. *)
Fixpoint all_below (n : nat) (P : Z -> bool) : bool :=
  match n with
  | O => true
  | S k => P (Z.of_nat k) && all_below k P
  end.

Definition tag_eqb (s t : op_tag) : bool :=
  match s, t with
  | T_INDEX, T_INDEX | T_DIFF, T_DIFF | T_LUMA, T_LUMA
  | T_RUN, T_RUN | T_RGB, T_RGB | T_RGBA, T_RGBA => true
  | _, _ => false
  end.

(** The encoder and the reference reader agree: the reader stands just
    before the pending run.  Every slot of the encoder's cache that can
    answer a lookup (it holds a pixel that hashes to it) is the same in
    the reader's cache, and the previous pixel is either in its slot or in
    a slot that cannot answer (the start of the stream). *)
Record in_sync (enc : qoi_encoder) (d : qoi_decoder) : Prop := mk_in_sync {
  sync_run : 0 <= run enc <= 61;
  sync_prev_ok : px_ok (prev_px enc);
  sync_len_enc : length (index enc) = 64%nat;
  sync_len_dec : length (dec_index d) = 64%nat;
  sync_px : dec_px d = prev_px enc;
  sync_cache : forall k, 0 <= k < 64 ->
    qoi_color_hash (index_get (index enc) k) = k ->
    index_get (dec_index d) k = index_get (index enc) k;
  sync_prev_cached :
    index_get (index enc) (qoi_color_hash (prev_px enc)) = prev_px enc \/
    qoi_color_hash (index_get (index enc) (qoi_color_hash (prev_px enc)))
      <> qoi_color_hash (prev_px enc)
}.

(** Four bytes read as a big-endian 32-bit number. *)
Definition be32 (b3 b2 b1 b0 : Z) : Z :=
  b3 * 2 ^ 24 + b2 * 2 ^ 16 + b1 * 2 ^ 8 + b0.

(** The DIFF byte of three biased deltas. *)
Definition diff_byte_of (x y z : Z) : Z :=
  u8 (Z.lor (Z.lor (Z.lor QOI_OP_DIFF (Z.shiftl x 4)) (Z.shiftl y 2)) z).

(** ** The command line *)

Section Main.

(** The environment of [main]: what [stbi_load] returns for a path
    ([None] when the image does not load), whether [fopen] of a path for
    writing succeeds, and the C library's [atoi]. *)
Variable stbi_load : String.string -> option image.
Variable fopen_wb : String.string -> bool.
Variable atoi : String.string -> Z.

(** [argv[i]] *)
Definition argv_at (argv : list String.string) (i : nat) : String.string :=
  nth i argv String.EmptyString.

(** [main]: the exit status and the bytes of the file written to
    [argv[2]], if one is written; [argc] is the length of [argv]. *)
Definition main (argv : list String.string) : Z * option (list Z) :=
  let argc := Z.of_nat (length argv) in
  if argc <? 3 then (1, None)
  else
    let lossy := if 3 <? argc then atoi (argv_at argv 3) else 0 in
    (0, convert_to_qoi (stbi_load (argv_at argv 1))
                       (fopen_wb (argv_at argv 2)) lossy).

End Main.

(** ** What a stream stands for *)

(** The pixels a stream stands for: each pixel as the previous-pixel state
    holds it once it has been written, itself when it got an opcode of its
    own and the anchor of the run when it was merged into one. *)
Fixpoint reconstructed (enc : qoi_encoder) (pxs : list qoi_rgba)
  : list qoi_rgba :=
  match pxs with
  | [] => []
  | px :: rest =>
      prev_px (fst (qoi_write_pixel enc px))
      :: reconstructed (fst (qoi_write_pixel enc px)) rest
  end.

Definition is_rgba (op : opcode) : bool :=
  match op with RGBA _ _ _ _ => true | _ => false end.

(** The raster bytes of a pixel sequence with four channels. *)
Definition rgba_bytes (pxs : list qoi_rgba) : list Z :=
  flat_map (fun px => [r px; g px; b px; a px]) pxs.

(** A value a [uint8_t] can hold. *)
Definition is_byte (x : Z) : Prop := 0 <= x <= 255.

(** ** Bytes and bit fields *)

(** Split a conjunction of comparisons that holds into its parts. *)
Ltac split_conds H :=
  repeat (apply andb_true_iff in H; let H' := fresh H in destruct H as [H H']);
  repeat match goal with
         | X : (_ <=? _) = true |- _ => apply Z.leb_le in X
         | X : (_ =? _) = true |- _ => apply Z.eqb_eq in X
         end.

Lemma all_below_spec (n : nat) (P : Z -> bool) :
  all_below n P = true -> forall x, 0 <= x < Z.of_nat n -> P x = true.
Proof.
  induction n as [|k IH]; simpl; intros H x Hx; [lia|].
  apply andb_true_iff in H as [Hk Hrest].
  destruct (Z.eq_dec x (Z.of_nat k)) as [->|Hne]; [exact Hk|].
  apply IH; [exact Hrest | lia].
Qed.

Lemma tag_eqb_eq (s t : op_tag) : tag_eqb s t = true -> s = t.
Proof. destruct s, t; simpl; congruence. Qed.

(** [QOI_OP_RUN | x] for a stored value [x] of at most 61 is the byte
    [0xc0 + x]; it carries the RUN tag and gives [x] back. *)
Lemma run_byte (x : Z) :
  0 <= x < 62 ->
  u8 (Z.lor QOI_OP_RUN x) = QOI_OP_RUN + x /\
  tag_of (u8 (Z.lor QOI_OP_RUN x)) = T_RUN /\
  Z.land (u8 (Z.lor QOI_OP_RUN x)) 0x3f = x.
Proof.
  intros Hx.
  assert (H : all_below 62 (fun x =>
            (u8 (Z.lor QOI_OP_RUN x) =? QOI_OP_RUN + x) &&
            tag_eqb (tag_of (u8 (Z.lor QOI_OP_RUN x))) T_RUN &&
            (Z.land (u8 (Z.lor QOI_OP_RUN x)) 0x3f =? x)) = true)
    by (vm_compute; reflexivity).
  pose proof (all_below_spec _ _ H x Hx) as Hb; cbv beta in Hb.
  apply andb_true_iff in Hb as [Hb H3].
  apply andb_true_iff in Hb as [H1 H2].
  repeat split; [now apply Z.eqb_eq | now apply tag_eqb_eq | now apply Z.eqb_eq].
Qed.

Lemma index_byte (k : Z) :
  0 <= k < 64 ->
  u8 (Z.lor QOI_OP_INDEX k) = k /\
  tag_of (u8 (Z.lor QOI_OP_INDEX k)) = T_INDEX /\
  Z.land (u8 (Z.lor QOI_OP_INDEX k)) 0x3f = k.
Proof.
  intros Hk.
  assert (H : all_below 64 (fun k =>
            (u8 (Z.lor QOI_OP_INDEX k) =? k) &&
            tag_eqb (tag_of (u8 (Z.lor QOI_OP_INDEX k))) T_INDEX &&
            (Z.land (u8 (Z.lor QOI_OP_INDEX k)) 0x3f =? k)) = true)
    by (vm_compute; reflexivity).
  pose proof (all_below_spec _ _ H k Hk) as Hb; cbv beta in Hb.
  apply andb_true_iff in Hb as [Hb H3].
  apply andb_true_iff in Hb as [H1 H2].
  repeat split; [now apply Z.eqb_eq | now apply tag_eqb_eq | now apply Z.eqb_eq].
Qed.

Lemma diff_byte (x y z : Z) :
  0 <= x < 4 -> 0 <= y < 4 -> 0 <= z < 4 ->
  tag_of (diff_byte_of x y z) = T_DIFF /\
  Z.land (Z.shiftr (diff_byte_of x y z) 4) 0x03 = x /\
  Z.land (Z.shiftr (diff_byte_of x y z) 2) 0x03 = y /\
  Z.land (diff_byte_of x y z) 0x03 = z.
Proof.
  intros Hx Hy Hz.
  assert (H : all_below 4 (fun x => all_below 4 (fun y => all_below 4 (fun z =>
            tag_eqb (tag_of (diff_byte_of x y z)) T_DIFF &&
            (Z.land (Z.shiftr (diff_byte_of x y z) 4) 0x03 =? x) &&
            (Z.land (Z.shiftr (diff_byte_of x y z) 2) 0x03 =? y) &&
            (Z.land (diff_byte_of x y z) 0x03 =? z)))) = true)
    by (vm_compute; reflexivity).
  pose proof (all_below_spec _ _ H x Hx) as Hx'; cbv beta in Hx'.
  pose proof (all_below_spec _ _ Hx' y Hy) as Hy'; cbv beta in Hy'.
  pose proof (all_below_spec _ _ Hy' z Hz) as Hb; cbv beta in Hb.
  apply andb_true_iff in Hb as [Hb H4].
  apply andb_true_iff in Hb as [Hb H3].
  apply andb_true_iff in Hb as [H1 H2].
  repeat split;
    [now apply tag_eqb_eq | now apply Z.eqb_eq | now apply Z.eqb_eq | now apply Z.eqb_eq].
Qed.

Lemma luma_byte1 (x : Z) :
  0 <= x < 64 ->
  tag_of (u8 (Z.lor QOI_OP_LUMA x)) = T_LUMA /\
  Z.land (u8 (Z.lor QOI_OP_LUMA x)) 0x3f = x.
Proof.
  intros Hx.
  assert (H : all_below 64 (fun x =>
            tag_eqb (tag_of (u8 (Z.lor QOI_OP_LUMA x))) T_LUMA &&
            (Z.land (u8 (Z.lor QOI_OP_LUMA x)) 0x3f =? x)) = true)
    by (vm_compute; reflexivity).
  pose proof (all_below_spec _ _ H x Hx) as Hb; cbv beta in Hb.
  apply andb_true_iff in Hb as [H1 H2].
  split; [now apply tag_eqb_eq | now apply Z.eqb_eq].
Qed.

Lemma luma_byte2 (x y : Z) :
  0 <= x < 16 -> 0 <= y < 16 ->
  Z.land (Z.shiftr (u8 (Z.lor (Z.shiftl x 4) y)) 4) 0x0f = x /\
  Z.land (u8 (Z.lor (Z.shiftl x 4) y)) 0x0f = y.
Proof.
  intros Hx Hy.
  assert (H : all_below 16 (fun x => all_below 16 (fun y =>
            (Z.land (Z.shiftr (u8 (Z.lor (Z.shiftl x 4) y)) 4) 0x0f =? x) &&
            (Z.land (u8 (Z.lor (Z.shiftl x 4) y)) 0x0f =? y))) = true)
    by (vm_compute; reflexivity).
  pose proof (all_below_spec _ _ H x Hx) as Hx'; cbv beta in Hx'.
  pose proof (all_below_spec _ _ Hx' y Hy) as Hb; cbv beta in Hb.
  apply andb_true_iff in Hb as [H1 H2].
  split; now apply Z.eqb_eq.
Qed.

(** ** The colour cache *)

Lemma list_set_length (l : list qoi_rgba) (n : nat) (px : qoi_rgba) :
  length (list_set l n px) = length l.
Proof.
  revert n; induction l as [|h t IH]; intros [|n]; simpl; auto.
Qed.

Lemma list_set_nth_same (l : list qoi_rgba) (n : nat) (px : qoi_rgba) :
  (n < length l)%nat -> nth n (list_set l n px) zero_px = px.
Proof.
  revert n; induction l as [|h t IH]; intros [|n]; simpl; intros H;
    try lia; auto.
  apply IH; lia.
Qed.

Lemma list_set_nth_other (l : list qoi_rgba) (n m : nat) (px : qoi_rgba) :
  n <> m -> nth m (list_set l n px) zero_px = nth m l zero_px.
Proof.
  revert n m; induction l as [|h t IH]; intros [|n] [|m]; simpl; intros H;
    try congruence; auto.
Qed.

Lemma index_set_length idx i px :
  length (index_set idx i px) = length idx.
Proof. apply list_set_length. Qed.

Lemma index_get_set_same idx i px :
  length idx = 64%nat -> 0 <= i < 64 ->
  index_get (index_set idx i px) i = px.
Proof.
  intros Hl Hi; unfold index_get, index_set.
  apply list_set_nth_same; lia.
Qed.

Lemma index_get_set_other idx i j px :
  0 <= i -> 0 <= j -> i <> j ->
  index_get (index_set idx i px) j = index_get idx j.
Proof.
  intros Hi Hj Hne; unfold index_get, index_set.
  apply list_set_nth_other; lia.
Qed.

Lemma index_get_init k : index_get (repeat zero_px 64) k = zero_px.
Proof. unfold index_get; apply nth_repeat. Qed.

Lemma hash_range px : 0 <= qoi_color_hash px < 64.
Proof. unfold qoi_color_hash; apply Z.mod_pos_bound; lia. Qed.

Lemma px_eqb_eq p q : px_eqb p q = true <-> p = q.
Proof.
  unfold px_eqb; destruct p, q; simpl.
  rewrite !andb_true_iff, !Z.eqb_eq.
  split; [intros [[[-> ->] ->] ->]; reflexivity | intros H; inversion H; auto].
Qed.

Lemma px_eqb_refl p : px_eqb p p = true.
Proof. now apply px_eqb_eq. Qed.

(** ** The near test *)

Lemma near_spec p q t :
  qoi_px_near p q t = true <->
  Z.abs (r p - r q) <= t /\ Z.abs (g p - g q) <= t /\
  Z.abs (b p - b q) <= t /\ a p = a q.
Proof.
  unfold qoi_px_near.
  rewrite !andb_true_iff, !Z.leb_le, Z.eqb_eq; tauto.
Qed.

Lemma near_refl p t : 0 <= t -> qoi_px_near p p t = true.
Proof. intros Ht; apply near_spec; rewrite !Z.sub_diag; simpl; lia. Qed.

Lemma near_sym p q t : qoi_px_near p q t = qoi_px_near q p t.
Proof.
  destruct (qoi_px_near p q t) eqn:E, (qoi_px_near q p t) eqn:F; auto.
  - apply near_spec in E.
    assert (qoi_px_near q p t = true) by (apply near_spec; lia); congruence.
  - apply near_spec in F.
    assert (qoi_px_near p q t = true) by (apply near_spec; lia); congruence.
Qed.

Lemma near_mono p q t1 t2 :
  t1 <= t2 -> qoi_px_near p q t1 = true -> qoi_px_near p q t2 = true.
Proof. rewrite !near_spec; intros; lia. Qed.

Lemma near_trans p q s t1 t2 :
  qoi_px_near p q t1 = true -> qoi_px_near q s t2 = true ->
  qoi_px_near p s (t1 + t2) = true.
Proof. rewrite !near_spec; intros; lia. Qed.

Lemma near_zero p q : qoi_px_near p q 0 = true <-> p = q.
Proof.
  rewrite near_spec; split.
  - intros (Hr & Hg & Hb & Ha); destruct p, q; simpl in *.
    f_equal; lia.
  - intros ->; rewrite !Z.sub_diag; simpl; lia.
Qed.

Lemma near_negative p q t : t < 0 -> qoi_px_near p q t = false.
Proof.
  intros Ht; destruct (qoi_px_near p q t) eqn:E; [|reflexivity].
  apply near_spec in E; lia.
Qed.

(** ** One call of [qoi_write_pixel] *)

Lemma write_pixel_near enc px :
  qoi_px_near px (prev_px enc) (lossiness enc) = true ->
  qoi_write_pixel enc px =
  if run enc + 1 =? 62
  then (set_run enc 0, [ u8 (Z.lor QOI_OP_RUN 61) ])
  else (set_run enc (run enc + 1), []).
Proof.
  intros Hn; unfold qoi_write_pixel; rewrite Hn; simpl.
  destruct (run enc + 1 =? 62); reflexivity.
Qed.

Lemma write_pixel_far enc px :
  qoi_px_near px (prev_px enc) (lossiness enc) = false ->
  qoi_write_pixel enc px =
  if px_eqb (index_get (index enc) (qoi_color_hash px)) px
  then (mk_encoder (if 0 <? run enc then 0 else run enc) px
                   (index enc) (lossiness enc),
        flush_bytes (run enc) ++ [ u8 (Z.lor QOI_OP_INDEX (qoi_color_hash px)) ])
  else (mk_encoder (if 0 <? run enc then 0 else run enc) px
                   (index_set (index enc) (qoi_color_hash px) px)
                   (lossiness enc),
        flush_bytes (run enc) ++ diff_bytes (prev_px enc) px).
Proof. intros Hn; unfold qoi_write_pixel; rewrite Hn; reflexivity. Qed.

Lemma write_pixel_lossiness enc px :
  lossiness (fst (qoi_write_pixel enc px)) = lossiness enc.
Proof.
  unfold qoi_write_pixel.
  destruct (qoi_px_near _ _ _); simpl.
  - destruct (run enc + 1 =? 62); reflexivity.
  - destruct (px_eqb _ _); reflexivity.
Qed.

Lemma write_pixel_prev enc px :
  prev_px (fst (qoi_write_pixel enc px)) =
  if qoi_px_near px (prev_px enc) (lossiness enc) then prev_px enc else px.
Proof.
  unfold qoi_write_pixel.
  destruct (qoi_px_near _ _ _); simpl.
  - destruct (run enc + 1 =? 62); reflexivity.
  - destruct (px_eqb _ _); reflexivity.
Qed.

Lemma write_pixel_run enc px :
  0 <= run enc <= 61 ->
  0 <= run (fst (qoi_write_pixel enc px)) <= 61.
Proof.
  intros Hr; unfold qoi_write_pixel.
  destruct (qoi_px_near _ _ _); simpl.
  - destruct (run enc + 1 =? 62) eqn:E; simpl; [lia|].
    apply Z.eqb_neq in E; lia.
  - destruct (px_eqb _ _); simpl; destruct (0 <? run enc); lia.
Qed.

Lemma write_pixel_far_run enc px :
  0 <= run enc ->
  qoi_px_near px (prev_px enc) (lossiness enc) = false ->
  run (fst (qoi_write_pixel enc px)) = 0.
Proof.
  intros Hr Hn; rewrite (write_pixel_far _ _ Hn).
  destruct (px_eqb _ _); simpl;
    destruct (0 <? run enc) eqn:E; try reflexivity;
    apply Z.ltb_ge in E; lia.
Qed.

(** The run counter of every state that occurs is between 0 and 61. *)
Lemma run_bounded lossy enc : reachable lossy enc -> 0 <= run enc <= 61.
Proof.
  induction 1 as [|enc px _ IH]; [simpl; lia|].
  now apply write_pixel_run.
Qed.

Lemma reachable_lossiness lossy enc :
  reachable lossy enc -> lossiness enc = lossy.
Proof.
  induction 1 as [|enc px _ IH]; [reflexivity|].
  now rewrite write_pixel_lossiness.
Qed.

(** ** The pixel loop *)

Lemma write_pixels_cons enc px rest :
  write_pixels enc (px :: rest) =
  (fst (write_pixels (fst (qoi_write_pixel enc px)) rest),
   snd (qoi_write_pixel enc px)
   ++ snd (write_pixels (fst (qoi_write_pixel enc px)) rest)).
Proof.
  simpl; destruct (qoi_write_pixel enc px) as [e1 o1]; simpl.
  destruct (write_pixels e1 rest); reflexivity.
Qed.

Lemma encode_from_nil enc : encode_from enc [] = flush_bytes (run enc).
Proof. reflexivity. Qed.

Lemma encode_from_cons enc px rest :
  encode_from enc (px :: rest) =
  snd (qoi_write_pixel enc px)
  ++ encode_from (fst (qoi_write_pixel enc px)) rest.
Proof.
  unfold encode_from; rewrite write_pixels_cons.
  destruct (write_pixels (fst (qoi_write_pixel enc px)) rest); simpl.
  now rewrite app_assoc.
Qed.

Lemma reachable_write_pixels lossy enc pxs :
  reachable lossy enc -> reachable lossy (fst (write_pixels enc pxs)).
Proof.
  revert enc; induction pxs as [|px rest IH]; intros enc Hr; [exact Hr|].
  rewrite write_pixels_cons; simpl.
  apply IH; now constructor.
Qed.

(** ** The bytes written, read as opcodes *)

Lemma qoi_opcodes_cons b1 rest :
  qoi_opcodes (b1 :: rest) =
  match tag_of b1 with
  | T_RGB =>
      match rest with
      | cr :: cg :: cb :: rest' => RGB cr cg cb :: qoi_opcodes rest'
      | _ => []
      end
  | T_RGBA =>
      match rest with
      | cr :: cg :: cb :: ca :: rest' => RGBA cr cg cb ca :: qoi_opcodes rest'
      | _ => []
      end
  | T_INDEX => INDEX (Z.land b1 0x3f) :: qoi_opcodes rest
  | T_DIFF =>
      DIFF (Z.land (Z.shiftr b1 4) 0x03) (Z.land (Z.shiftr b1 2) 0x03)
           (Z.land b1 0x03) :: qoi_opcodes rest
  | T_LUMA =>
      match rest with
      | b2 :: rest' =>
          LUMA (Z.land b1 0x3f) (Z.land (Z.shiftr b2 4) 0x0f)
               (Z.land b2 0x0f) :: qoi_opcodes rest'
      | [] => []
      end
  | T_RUN => RUN (Z.land b1 0x3f) :: qoi_opcodes rest
  end.
Proof. reflexivity. Qed.

Lemma opcodes_run_byte x rest :
  0 <= x < 62 ->
  qoi_opcodes (u8 (Z.lor QOI_OP_RUN x) :: rest) = RUN x :: qoi_opcodes rest.
Proof.
  intros Hx; destruct (run_byte x Hx) as (_ & Ht & Hl).
  now rewrite qoi_opcodes_cons, Ht, Hl.
Qed.

Lemma opcodes_flush n rest :
  0 <= n <= 61 ->
  qoi_opcodes (flush_bytes n ++ rest) = flush_ops n ++ qoi_opcodes rest.
Proof.
  intros Hn; unfold flush_bytes, flush_ops.
  destruct (0 <? n) eqn:E; [|reflexivity].
  apply Z.ltb_lt in E; cbn [app].
  apply opcodes_run_byte; lia.
Qed.

Lemma opcodes_index k rest :
  0 <= k < 64 ->
  qoi_opcodes (u8 (Z.lor QOI_OP_INDEX k) :: rest) = INDEX k :: qoi_opcodes rest.
Proof.
  intros Hk; destruct (index_byte k Hk) as (_ & Ht & Hl).
  now rewrite qoi_opcodes_cons, Ht, Hl.
Qed.

Lemma opcodes_diff_bytes prev px rest :
  qoi_opcodes (diff_bytes prev px ++ rest) =
  diff_op prev px :: qoi_opcodes rest.
Proof.
  unfold diff_bytes, diff_op.
  set (dr := r px - r prev); set (dg := g px - g prev);
    set (db := b px - b prev); set (da := a px - a prev).
  destruct ((da =? 0) && (-2 <=? dr) && (dr <=? 1) && (-2 <=? dg) &&
            (dg <=? 1) && (-2 <=? db) && (db <=? 1)) eqn:Ed.
  - split_conds Ed.
    destruct (diff_byte (dr + 2) (dg + 2) (db + 2)) as (Ht & H1 & H2 & H3);
      try lia.
    unfold diff_byte_of in *; cbn [app].
    now rewrite qoi_opcodes_cons, Ht, H1, H2, H3.
  - destruct ((da =? 0) && (-32 <=? dg) && (dg <=? 31) &&
              (-8 <=? dr - dg) && (dr - dg <=? 7) &&
              (-8 <=? db - dg) && (db - dg <=? 7)) eqn:El.
    + split_conds El.
      destruct (luma_byte1 (dg + 32)) as (Ht & H1); try lia.
      destruct (luma_byte2 (dr - dg + 8) (db - dg + 8)) as (H2 & H3);
        try lia.
      cbn [app].
      now rewrite qoi_opcodes_cons, Ht, H1, H2, H3.
    + destruct (a px =? a prev); reflexivity.
Qed.

Lemma diff_op_not_run prev px : is_run (diff_op prev px) = false.
Proof.
  unfold diff_op.
  repeat match goal with |- context [if ?c then _ else _] => destruct c end;
    reflexivity.
Qed.

Lemma pixel_op_not_run enc px : is_run (pixel_op enc px) = false.
Proof.
  unfold pixel_op; destruct (px_eqb _ _); [reflexivity|].
  apply diff_op_not_run.
Qed.

(** The bytes of a pixel that fails the near test are the flush of the
    pending run, then the one opcode chosen for the pixel. *)
Lemma opcodes_write_far enc px rest :
  0 <= run enc <= 61 ->
  qoi_px_near px (prev_px enc) (lossiness enc) = false ->
  qoi_opcodes (snd (qoi_write_pixel enc px) ++ rest) =
  flush_ops (run enc) ++ pixel_op enc px :: qoi_opcodes rest.
Proof.
  intros Hr Hn; rewrite (write_pixel_far _ _ Hn); unfold pixel_op.
  destruct (px_eqb _ _); cbn [snd]; rewrite <- app_assoc, opcodes_flush by lia.
  - cbn [app]. now rewrite opcodes_index by apply hash_range.
  - now rewrite opcodes_diff_bytes.
Qed.

(** ** The reference reader on the encoder's opcodes *)

Lemma decode_ops_cons d op rest :
  decode_ops d (op :: rest) =
  snd (decode_op d op) ++ decode_ops (fst (decode_op d op)) rest.
Proof. reflexivity. Qed.

Lemma repeat_succ_app (x : qoi_rgba) (n : Z) (l : list qoi_rgba) :
  0 <= n ->
  repeat x (Z.to_nat (n + 1)) ++ l = repeat x (Z.to_nat n) ++ x :: l.
Proof.
  intros Hn.
  replace (Z.to_nat (n + 1)) with (S (Z.to_nat n)) by lia.
  change (repeat x (S (Z.to_nat n))) with (x :: repeat x (Z.to_nat n)).
  rewrite repeat_cons, <- app_assoc; reflexivity.
Qed.

Lemma u8_small x : 0 <= x <= 255 -> u8 x = x.
Proof. intros H; unfold u8; apply Z.mod_small; lia. Qed.

(** A DIFF, LUMA, RGB or RGBA opcode gives the encoded pixel back. *)
Lemma diff_op_pixel d prev px :
  px_ok prev -> px_ok px -> dec_px d = prev ->
  op_pixel d (diff_op prev px) = px.
Proof.
  intros Hprev Hpx Hd; unfold diff_op.
  set (dr := r px - r prev); set (dg := g px - g prev);
    set (db := b px - b prev); set (da := a px - a prev).
  destruct Hpx as (Hr & Hg & Hb & Ha).
  destruct ((da =? 0) && (-2 <=? dr) && (dr <=? 1) && (-2 <=? dg) &&
            (dg <=? 1) && (-2 <=? db) && (db <=? 1)) eqn:Ed.
  - split_conds Ed; unfold op_pixel; rewrite Hd.
    replace (r prev + (dr + 2 - 2)) with (r px) by (unfold dr; lia).
    replace (g prev + (dg + 2 - 2)) with (g px) by (unfold dg; lia).
    replace (b prev + (db + 2 - 2)) with (b px) by (unfold db; lia).
    replace (a prev) with (a px) by (unfold da in Ed; lia).
    rewrite !u8_small by assumption; destruct px; reflexivity.
  - destruct ((da =? 0) && (-32 <=? dg) && (dg <=? 31) &&
              (-8 <=? dr - dg) && (dr - dg <=? 7) &&
              (-8 <=? db - dg) && (db - dg <=? 7)) eqn:El.
    + split_conds El; unfold op_pixel; rewrite Hd; cbv zeta.
      replace (r prev + (dg + 32 - 32 - 8 + (dr - dg + 8))) with (r px)
        by (unfold dr; lia).
      replace (g prev + (dg + 32 - 32)) with (g px) by (unfold dg; lia).
      replace (b prev + (dg + 32 - 32 - 8 + (db - dg + 8))) with (b px)
        by (unfold db; lia).
      replace (a prev) with (a px) by (unfold da in El; lia).
      rewrite !u8_small by assumption; destruct px; reflexivity.
    + destruct (a px =? a prev) eqn:Ea; unfold op_pixel; rewrite ?Hd.
      * apply Z.eqb_eq in Ea; rewrite <- Ea; destruct px; reflexivity.
      * destruct px; reflexivity.
Qed.

Lemma in_sync_set_run enc d m :
  in_sync enc d -> 0 <= m <= 61 -> in_sync (set_run enc m) d.
Proof. intros [] Hm; constructor; simpl; auto. Qed.

(** Reading a RUN opcode keeps the reader in step: it stores the previous
    pixel in the reader's cache, in a slot where the encoder's cache holds
    the same pixel or cannot answer. *)
Lemma in_sync_run_op enc d n :
  in_sync enc d -> in_sync enc (fst (decode_op d (RUN n))).
Proof.
  intros [Hr Hok Hle Hld Hpx Hc Hp]; constructor; simpl; auto.
  - now rewrite index_set_length.
  - intros k Hk Hh; rewrite Hpx.
    destruct (Z.eq_dec (qoi_color_hash (prev_px enc)) k) as [<-|Hne].
    + rewrite index_get_set_same by (auto using hash_range).
      destruct Hp as [Hp|Hp]; [now rewrite Hp | contradiction].
    + rewrite index_get_set_other; auto; try lia.
      apply hash_range.
Qed.

Lemma decode_run_op d n :
  snd (decode_op d (RUN n)) = repeat (dec_px d) (Z.to_nat (n + 1)).
Proof. reflexivity. Qed.

(** The flush of the pending run reads back as that many copies of the
    previous pixel. *)
Lemma in_sync_flush enc d :
  in_sync enc d ->
  exists d1, in_sync (set_run enc 0) d1 /\
    forall ops, decode_ops d (flush_ops (run enc) ++ ops) =
                repeat (prev_px enc) (Z.to_nat (run enc)) ++ decode_ops d1 ops.
Proof.
  intros Hs; pose proof (sync_run _ _ Hs) as Hr.
  unfold flush_ops; destruct (0 <? run enc) eqn:E.
  - apply Z.ltb_lt in E.
    exists (fst (decode_op d (RUN (run enc - 1)))); split.
    + apply in_sync_set_run; [now apply in_sync_run_op | lia].
    + intros ops; cbn [app]; rewrite decode_ops_cons, decode_run_op.
      rewrite (sync_px _ _ Hs).
      now replace (run enc - 1 + 1) with (run enc) by lia.
  - apply Z.ltb_ge in E; exists d; split.
    + apply in_sync_set_run; [assumption | lia].
    + intros ops; replace (run enc) with 0 by lia; reflexivity.
Qed.

(** The opcode of a pixel that fails the near test reads back as that
    pixel, and both caches take it in the same slot. *)
Lemma in_sync_pixel_op enc d px :
  in_sync enc d -> px_ok px ->
  in_sync (mk_encoder 0 px
             (if px_eqb (index_get (index enc) (qoi_color_hash px)) px
              then index enc
              else index_set (index enc) (qoi_color_hash px) px)
             (lossiness enc))
          (fst (decode_op d (pixel_op enc px))) /\
  snd (decode_op d (pixel_op enc px)) = [px].
Proof.
  intros [Hr Hok Hle Hld Hpx Hc Hp] Hpxok.
  pose proof (hash_range px) as Hh.
  assert (Hop : op_pixel d (pixel_op enc px) = px).
  { unfold pixel_op.
    destruct (px_eqb _ _) eqn:E.
    - apply px_eqb_eq in E; simpl.
      rewrite Hc; auto. now rewrite E.
    - now apply diff_op_pixel. }
  split.
  - constructor; simpl; rewrite ?Hop; auto; try lia.
    + destruct (px_eqb _ _); [assumption | now rewrite index_set_length].
    + now rewrite index_set_length.
    + intros k Hk Hhk.
      destruct (Z.eq_dec (qoi_color_hash px) k) as [<-|Hne].
      * rewrite index_get_set_same by auto.
        destruct (px_eqb _ _) eqn:E.
        -- apply px_eqb_eq in E; now rewrite E.
        -- now rewrite index_get_set_same.
      * rewrite index_get_set_other by (auto; lia).
        destruct (px_eqb _ _) eqn:E.
        -- now apply Hc.
        -- rewrite index_get_set_other in * by (auto; lia). now apply Hc.
    + left. destruct (px_eqb _ _) eqn:E.
      * now apply px_eqb_eq in E.
      * now rewrite index_get_set_same.
  - unfold decode_op; cbn [snd]; rewrite Hop.
    unfold pixel_op, diff_op.
    repeat match goal with |- context [if ?c then _ else _] => destruct c end;
      reflexivity.
Qed.

Lemma in_sync_init :
  in_sync (qoi_encoder_init 0) qoi_decoder_init.
Proof.
  constructor; simpl; try lia; try reflexivity.
  - unfold px_ok; simpl; lia.
  - right; rewrite index_get_init; vm_compute; discriminate.
Qed.

(** The reader gives back the pending run and then every pixel. *)
Lemma decode_encode_from pxs : forall enc d,
  in_sync enc d -> lossiness enc = 0 -> Forall px_ok pxs ->
  decode_ops d (qoi_opcodes (encode_from enc pxs)) =
  repeat (prev_px enc) (Z.to_nat (run enc)) ++ pxs.
Proof.
  induction pxs as [|px rest IH]; intros enc d Hs Hl Hok.
  - rewrite encode_from_nil, <- (app_nil_r (flush_bytes _)).
    rewrite opcodes_flush by apply (sync_run _ _ Hs).
    destruct (in_sync_flush _ _ Hs) as (d1 & _ & Hd).
    rewrite Hd; reflexivity.
  - inversion Hok as [|? ? Hpx Hrest]; subst.
    pose proof (sync_run _ _ Hs) as Hr.
    rewrite encode_from_cons.
    destruct (qoi_px_near px (prev_px enc) (lossiness enc)) eqn:Hn.
    + assert (px = prev_px enc) by (rewrite Hl in Hn; now apply near_zero).
      subst px; rewrite (write_pixel_near _ _ Hn).
      destruct (run enc + 1 =? 62) eqn:E; cbn [fst snd app].
      * apply Z.eqb_eq in E.
        rewrite opcodes_run_byte, decode_ops_cons, decode_run_op by lia.
        rewrite (IH (set_run enc 0) (fst (decode_op d (RUN 61))));
          [| apply in_sync_set_run; [now apply in_sync_run_op | lia]
           | assumption | assumption ].
        rewrite (sync_px _ _ Hs); cbn [set_run run prev_px].
        change (Z.to_nat 0) with O; cbn [repeat app].
        replace (run enc) with 61 by lia.
        now rewrite repeat_succ_app by lia.
      * apply Z.eqb_neq in E.
        rewrite (IH (set_run enc (run enc + 1)) d);
          [| apply in_sync_set_run; [assumption | lia]
           | assumption | assumption ].
        cbn [set_run run prev_px]; now rewrite repeat_succ_app by lia.
    + rewrite opcodes_write_far by assumption.
      destruct (in_sync_flush _ _ Hs) as (d1 & Hs1 & Hd); rewrite Hd.
      f_equal.
      destruct (in_sync_pixel_op _ _ px Hs1 Hpx) as (Hs2 & Hout).
      change (pixel_op (set_run enc 0) px) with (pixel_op enc px) in *.
      rewrite decode_ops_cons, Hout.
      cbn [set_run index lossiness] in Hs2.
      rewrite (write_pixel_far _ _ Hn).
      replace (if 0 <? run enc then 0 else run enc) with 0
        by (destruct (0 <? run enc) eqn:E; [reflexivity | apply Z.ltb_ge in E; lia]).
      destruct (px_eqb (index_get (index enc) (qoi_color_hash px)) px);
        cbn [fst]; rewrite (IH _ _ Hs2 Hl Hrest); reflexivity.
Qed.

(** ** Runs *)

Lemma run_lengths_app l1 l2 :
  run_lengths (l1 ++ l2) = run_lengths l1 ++ run_lengths l2.
Proof. unfold run_lengths; now rewrite filter_app, map_app. Qed.

Lemma run_lengths_cons_other op l :
  is_run op = false -> run_lengths (op :: l) = run_lengths l.
Proof. intros H; unfold run_lengths; simpl; now rewrite H. Qed.

Lemma run_lengths_flush_ops n :
  run_lengths (flush_ops n) = if 0 <? n then [n] else [].
Proof.
  unfold flush_ops; destruct (0 <? n); [|reflexivity].
  unfold run_lengths; simpl; f_equal; lia.
Qed.

Lemma sum_Z_app l1 l2 : sum_Z (l1 ++ l2) = sum_Z l1 + sum_Z l2.
Proof. induction l1 as [|x l IH]; simpl; [reflexivity | rewrite IH; lia]. Qed.

Lemma sum_Z_cons x l : sum_Z (x :: l) = x + sum_Z l.
Proof. reflexivity. Qed.

Lemma absorbed_cons enc px rest :
  absorbed enc (px :: rest) =
  ((if qoi_px_near px (prev_px enc) (lossiness enc) then 1 else 0)
   + absorbed (fst (qoi_write_pixel enc px)) rest)%nat.
Proof. reflexivity. Qed.

(** The RUN opcodes of a stream account for exactly the pixels that took
    the near branch (and the run already pending), each RUN standing for
    between 1 and 62 of them. *)
Lemma run_lengths_encode_from pxs : forall enc,
  0 <= run enc <= 61 ->
  sum_Z (run_lengths (qoi_opcodes (encode_from enc pxs)))
    = run enc + Z.of_nat (absorbed enc pxs) /\
  Forall (fun n => 1 <= n <= 62)
         (run_lengths (qoi_opcodes (encode_from enc pxs))).
Proof.
  induction pxs as [|px rest IH]; intros enc Hr.
  - rewrite encode_from_nil, <- (app_nil_r (flush_bytes _)).
    rewrite opcodes_flush, app_nil_r, run_lengths_flush_ops by assumption.
    destruct (0 <? run enc) eqn:E; simpl.
    + apply Z.ltb_lt in E; split; [lia | constructor; [lia | constructor]].
    + apply Z.ltb_ge in E; split; [lia | constructor].
  - rewrite encode_from_cons, absorbed_cons.
    pose proof (write_pixel_run enc px Hr) as Hr1.
    destruct (IH _ Hr1) as [IHs IHf].
    destruct (qoi_px_near px (prev_px enc) (lossiness enc)) eqn:Hn.
    + rewrite (write_pixel_near _ _ Hn) in *.
      destruct (run enc + 1 =? 62) eqn:E; cbn [fst snd app] in *.
      * apply Z.eqb_eq in E.
        rewrite opcodes_run_byte by lia.
        change (run_lengths (RUN 61 :: ?l)) with (62 :: run_lengths l).
        split; [rewrite sum_Z_cons, IHs; cbn [set_run run]; lia
               | constructor; [lia | assumption] ].
      * split; [rewrite IHs; cbn [set_run run]; lia | assumption].
    + rewrite opcodes_write_far, run_lengths_app by assumption.
      rewrite run_lengths_cons_other by apply pixel_op_not_run.
      rewrite run_lengths_flush_ops, sum_Z_app, IHs.
      rewrite (write_pixel_far_run enc px) by (assumption || lia).
      destruct (0 <? run enc) eqn:E; simpl.
      * apply Z.ltb_lt in E.
        split; [lia | constructor; [lia | assumption]].
      * apply Z.ltb_ge in E; split; [lia | assumption].
Qed.

Lemma set_run_set_run enc m n : set_run (set_run enc m) n = set_run enc n.
Proof. reflexivity. Qed.

Lemma near_steps_succ k n :
  near_steps k (S n) =
  if k + 1 =? 62
  then (fst (near_steps 0 n), u8 (Z.lor QOI_OP_RUN 61) :: snd (near_steps 0 n))
  else near_steps (k + 1) n.
Proof.
  simpl; destruct (k + 1 =? 62); [|reflexivity].
  destruct (near_steps 0 n); reflexivity.
Qed.

(** A stretch of pixels that all pass the near test moves the counter
    only: the state is otherwise unchanged and the only bytes written are
    cap flushes. *)
Lemma write_pixels_near pxs : forall enc,
  Forall (fun px => qoi_px_near px (prev_px enc) (lossiness enc) = true) pxs ->
  write_pixels enc pxs =
  (set_run enc (fst (near_steps (run enc) (length pxs))),
   snd (near_steps (run enc) (length pxs))).
Proof.
  induction pxs as [|px rest IH]; intros enc Hall.
  - destruct enc; reflexivity.
  - inversion Hall as [|? ? Hn Hrest]; subst.
    rewrite write_pixels_cons, (write_pixel_near _ _ Hn).
    cbn [length]; rewrite near_steps_succ.
    destruct (run enc + 1 =? 62); cbn [fst snd].
    + rewrite (IH (set_run enc 0)) by exact Hrest.
      cbn [fst snd app]; now rewrite set_run_set_run.
    + rewrite (IH (set_run enc (run enc + 1))) by exact Hrest.
      cbn [fst snd app]; now rewrite set_run_set_run.
Qed.

(** With a negative threshold every pixel fails the near test: the
    counter stays 0 and no RUN opcode is written. *)
Lemma negative_threshold_no_run pxs : forall enc,
  lossiness enc < 0 -> run enc = 0 ->
  run (fst (write_pixels enc pxs)) = 0 /\
  absorbed enc pxs = O /\
  filter is_run (qoi_opcodes (encode_from enc pxs)) = [].
Proof.
  induction pxs as [|px rest IH]; intros enc Hl Hr.
  - rewrite encode_from_nil, Hr; simpl; auto.
  - pose proof (near_negative px (prev_px enc) _ Hl) as Hn.
    assert (Hr1 : run (fst (qoi_write_pixel enc px)) = 0)
      by (apply write_pixel_far_run; [lia | assumption]).
    assert (Hl1 : lossiness (fst (qoi_write_pixel enc px)) < 0)
      by now rewrite write_pixel_lossiness.
    destruct (IH _ Hl1 Hr1) as (IH1 & IH2 & IH3).
    rewrite write_pixels_cons, absorbed_cons, encode_from_cons, Hn.
    rewrite opcodes_write_far by (assumption || lia).
    rewrite Hr; cbn [fst flush_ops Z.ltb Z.compare app filter].
    rewrite pixel_op_not_run; auto.
Qed.

(** ** Thresholds compared *)

(** Two encoders read the same pixels, the second with a threshold at
    least twice the first.  While their previous pixels are near each
    other (at the smaller threshold) the second absorbs at least as many
    pixels; in any case it is behind by at most one. *)
Lemma absorbed_doubling pxs : forall e1 e2,
  0 <= lossiness e1 -> 2 * lossiness e1 <= lossiness e2 ->
  (qoi_px_near (prev_px e1) (prev_px e2) (lossiness e1) = true ->
   (absorbed e1 pxs <= absorbed e2 pxs)%nat) /\
  (absorbed e1 pxs <= absorbed e2 pxs + 1)%nat.
Proof.
  induction pxs as [|px rest IH]; intros e1 e2 H0 H2.
  - simpl; split; intros; lia.
  - rewrite !absorbed_cons.
    destruct (IH (fst (qoi_write_pixel e1 px)) (fst (qoi_write_pixel e2 px)))
      as [IHc IHa]; rewrite ?write_pixel_lossiness; try assumption.
    rewrite !write_pixel_prev, write_pixel_lossiness in IHc.
    destruct (qoi_px_near px (prev_px e1) (lossiness e1)) eqn:N1,
             (qoi_px_near px (prev_px e2) (lossiness e2)) eqn:N2.
    + split; [intros Hc; specialize (IHc Hc) |]; lia.
    + split.
      * intros Hc; exfalso.
        pose proof (near_trans _ _ _ _ _ N1 Hc) as Hx.
        apply (near_mono _ _ _ (lossiness e2)) in Hx; [congruence | lia].
      * rewrite near_sym in IHc; specialize (IHc N1); lia.
    + split; intros; lia.
    + rewrite near_refl in IHc by assumption.
      specialize (IHc eq_refl); split; intros; lia.
Qed.

(** ** Framing *)

Lemma be32_bytes w :
  be32 (u8 (Z.shiftr w 24)) (u8 (Z.shiftr w 16)) (u8 (Z.shiftr w 8)) (u8 w)
  = w mod 2 ^ 32.
Proof.
  unfold be32, u8; rewrite !Z.shiftr_div_pow2 by lia.
  change (2 ^ 24) with 16777216; change (2 ^ 16) with 65536;
    change (2 ^ 8) with 256; change (2 ^ 32) with 4294967296.
  Z.to_euclidean_division_equations; lia.
Qed.

(** ** The properties of the specification *)

(** C1.  Lossless round trip: at threshold 0, the reference reader applied
    to the opcode stream the encoder writes for a pixel sequence
    (initialise, every pixel in order, final flush) gives back exactly
    that sequence. *)
Theorem lossless_round_trip (pxs : list qoi_rgba) :
  Forall px_ok pxs -> qoi_decode (encode_pixels 0 pxs) = pxs.
Proof.
  intros Hok; unfold qoi_decode, encode_pixels.
  now rewrite (decode_encode_from pxs _ _ in_sync_init eq_refl Hok).
Qed.

Lemma lossless_round_trip_witness :
  let pxs := [ mk_rgba 0 0 0 255; mk_rgba 0 0 0 255; mk_rgba 1 2 3 0;
               mk_rgba 1 2 3 255; mk_rgba 1 2 3 0; mk_rgba 0 0 0 0;
               mk_rgba 0 0 0 255; mk_rgba 200 100 0 255;
               mk_rgba 200 100 0 255 ] in
  Forall px_ok pxs /\ qoi_decode (encode_pixels 0 pxs) = pxs.
Proof.
  assert (H : Forall px_ok
                [ mk_rgba 0 0 0 255; mk_rgba 0 0 0 255; mk_rgba 1 2 3 0;
                  mk_rgba 1 2 3 255; mk_rgba 1 2 3 0; mk_rgba 0 0 0 0;
                  mk_rgba 0 0 0 255; mk_rgba 200 100 0 255;
                  mk_rgba 200 100 0 255 ])
    by (repeat (constructor; [unfold px_ok; simpl; lia|]); constructor).
  split; [exact H | exact (lossless_round_trip _ H)].
Defined.

(** C2.  A pixel that passes the near test changes the run counter only:
    previous pixel, cache and threshold stay as they are.  Hence a pixel
    that fails the near test and is followed by any number of pixels near
    it leaves itself, the anchor of the run, as the previous pixel, and a
    stretch of pixels near the previous pixel leaves that pixel, the cache
    and the threshold unchanged. *)
Theorem near_pixel_frame :
  (forall enc px,
     qoi_px_near px (prev_px enc) (lossiness enc) = true ->
     let enc' := fst (qoi_write_pixel enc px) in
     prev_px enc' = prev_px enc /\ index enc' = index enc /\
     lossiness enc' = lossiness enc /\ enc' = set_run enc (run enc')) /\
  (forall enc anchor pxs,
     qoi_px_near anchor (prev_px enc) (lossiness enc) = false ->
     Forall (fun q => qoi_px_near q anchor (lossiness enc) = true) pxs ->
     prev_px (fst (write_pixels enc (anchor :: pxs))) = anchor) /\
  (forall enc pxs,
     Forall (fun q => qoi_px_near q (prev_px enc) (lossiness enc) = true) pxs ->
     let enc' := fst (write_pixels enc pxs) in
     prev_px enc' = prev_px enc /\ index enc' = index enc /\
     lossiness enc' = lossiness enc).
Proof.
  split; [|split].
  - intros enc px Hn; cbv zeta; rewrite (write_pixel_near _ _ Hn).
    destruct (run enc + 1 =? 62); simpl; auto.
  - intros enc anchor pxs Hfar Hall.
    rewrite write_pixels_cons; cbn [fst].
    rewrite write_pixels_near.
    + cbn [fst set_run prev_px]; now rewrite write_pixel_prev, Hfar.
    + now rewrite write_pixel_prev, write_pixel_lossiness, Hfar.
  - intros enc pxs Hall; cbv zeta.
    rewrite (write_pixels_near _ _ Hall); simpl; auto.
Qed.

Lemma near_pixel_frame_witness :
  let anchor := mk_rgba 10 10 10 255 in
  let enc := fst (qoi_write_pixel (qoi_encoder_init 2) anchor) in
  (qoi_px_near (mk_rgba 12 9 10 255) (prev_px enc) (lossiness enc) = true /\
   prev_px (fst (qoi_write_pixel enc (mk_rgba 12 9 10 255))) = anchor) /\
  (qoi_px_near anchor (prev_px (qoi_encoder_init 2)) 2 = false /\
   prev_px (fst (write_pixels (qoi_encoder_init 2)
                   [anchor; mk_rgba 12 9 10 255; mk_rgba 11 11 8 255]))
   = anchor) /\
  index (fst (write_pixels enc [mk_rgba 12 9 10 255; mk_rgba 11 11 8 255]))
  = index enc.
Proof.
  cbv zeta; split; [split | split; [split|]].
  - reflexivity.
  - exact (proj1 (proj1 near_pixel_frame
             (fst (qoi_write_pixel (qoi_encoder_init 2) (mk_rgba 10 10 10 255)))
             (mk_rgba 12 9 10 255) eq_refl)).
  - reflexivity.
  - apply (proj1 (proj2 near_pixel_frame)); [reflexivity|].
    repeat (constructor; [reflexivity|]); constructor.
  - apply (proj2 (proj2 near_pixel_frame)
             (fst (qoi_write_pixel (qoi_encoder_init 2) (mk_rgba 10 10 10 255)))).
    repeat (constructor; [reflexivity|]); constructor.
Defined.

(** C3.  In every state that occurs (after initialisation and after every
    pixel) the run counter is between 0 and 61.  Each place that writes a
    RUN opcode stores the count minus one: the cap flush writes stored
    value 61 when the count reaches 62 and resets the counter; the flush
    on a pixel that fails the near test and the final flush write stored
    value [run - 1] for the [run] pending pixels.  Over any stream the
    lengths of the RUN opcodes add up to the pixels merged into runs, and
    no RUN opcode stands for more than 62 pixels. *)
Theorem run_counter_and_run_opcodes (lossy : Z) (enc : qoi_encoder) :
  reachable lossy enc ->
  0 <= run enc <= 61 /\
  (forall px, qoi_px_near px (prev_px enc) (lossiness enc) = true ->
     run enc + 1 = 62 ->
     qoi_write_pixel enc px = (set_run enc 0, [QOI_OP_RUN + 61]) /\
     qoi_opcodes [QOI_OP_RUN + 61] = [RUN 61] /\
     run_length (RUN 61) = run enc + 1) /\
  (forall px, qoi_px_near px (prev_px enc) (lossiness enc) = true ->
     run enc + 1 <> 62 ->
     qoi_write_pixel enc px = (set_run enc (run enc + 1), [])) /\
  (forall px rest, qoi_px_near px (prev_px enc) (lossiness enc) = false ->
     0 < run enc ->
     (exists tail, snd (qoi_write_pixel enc px)
                   = (QOI_OP_RUN + (run enc - 1)) :: tail) /\
     qoi_opcodes (snd (qoi_write_pixel enc px) ++ rest)
       = RUN (run enc - 1) :: pixel_op enc px :: qoi_opcodes rest /\
     run_length (RUN (run enc - 1)) = run enc /\
     run (fst (qoi_write_pixel enc px)) = 0) /\
  (0 < run enc ->
     flush_bytes (run enc) = [QOI_OP_RUN + (run enc - 1)] /\
     qoi_opcodes (flush_bytes (run enc)) = [RUN (run enc - 1)]) /\
  (forall pxs,
     sum_Z (run_lengths (qoi_opcodes (encode_from enc pxs)))
       = run enc + Z.of_nat (absorbed enc pxs) /\
     Forall (fun n => 1 <= n <= 62)
            (run_lengths (qoi_opcodes (encode_from enc pxs)))).
Proof.
  intros Hreach; pose proof (run_bounded _ _ Hreach) as Hr.
  split; [exact Hr|]; split; [|split; [|split; [|split]]].
  - intros px Hn E; rewrite (write_pixel_near _ _ Hn).
    replace (run enc + 1 =? 62) with true by (symmetry; now apply Z.eqb_eq).
    repeat split; simpl; lia.
  - intros px Hn E; rewrite (write_pixel_near _ _ Hn).
    replace (run enc + 1 =? 62) with false by (symmetry; now apply Z.eqb_neq).
    reflexivity.
  - intros px rest Hn Hpos.
    assert (Hlt : (0 <? run enc) = true) by now apply Z.ltb_lt.
    destruct (run_byte (run enc - 1)) as (Hb & _); [lia|].
    repeat split.
    + rewrite (write_pixel_far _ _ Hn); unfold flush_bytes; rewrite Hlt, Hb.
      destruct (px_eqb _ _); cbn [snd app]; eexists; reflexivity.
    + rewrite opcodes_write_far by assumption.
      unfold flush_ops; now rewrite Hlt.
    + simpl; lia.
    + apply write_pixel_far_run; [lia | assumption].
  - intros Hpos.
    assert (Hlt : (0 <? run enc) = true) by now apply Z.ltb_lt.
    destruct (run_byte (run enc - 1)) as (Hb & _); [lia|].
    split.
    + unfold flush_bytes; now rewrite Hlt, Hb.
    + rewrite <- (app_nil_r (flush_bytes _)), opcodes_flush by assumption.
      unfold flush_ops; now rewrite Hlt.
  - intros pxs; now apply run_lengths_encode_from.
Qed.

Lemma run_counter_and_run_opcodes_witness :
  let enc := fst (qoi_write_pixel (qoi_encoder_init 0) (mk_rgba 0 0 0 255)) in
  reachable 0 enc /\ 0 <= run enc <= 61 /\
  (0 < run enc -> flush_bytes (run enc) = [QOI_OP_RUN + (run enc - 1)] /\
                  qoi_opcodes (flush_bytes (run enc)) = [RUN (run enc - 1)]).
Proof.
  cbv zeta.
  assert (H : reachable 0
                (fst (qoi_write_pixel (qoi_encoder_init 0) (mk_rgba 0 0 0 255))))
    by (apply reach_step, reach_init).
  split; [exact H|].
  split; [exact (proj1 (run_counter_and_run_opcodes 0 _ H))|].
  exact (proj1 (proj2 (proj2 (proj2 (proj2
           (run_counter_and_run_opcodes 0 _ H)))))).
Defined.

(** C4 (as the code has it).  The near test is monotonic in the threshold
    for every pair of pixels.  The number of pixels merged into runs is
    monotonic between thresholds [t1 <= t2] when [t2 = t1] or
    [t2 >= 2 * t1], in particular from the lossless threshold 0 to any
    threshold. *)
Theorem absorbed_monotone_doubling :
  (forall p q t1 t2,
     t1 <= t2 -> qoi_px_near p q t1 = true -> qoi_px_near p q t2 = true) /\
  (forall pxs t1 t2,
     0 <= t1 -> t2 = t1 \/ 2 * t1 <= t2 ->
     (absorbed (qoi_encoder_init t1) pxs
      <= absorbed (qoi_encoder_init t2) pxs)%nat).
Proof.
  split.
  - intros p q t1 t2; apply near_mono.
  - intros pxs t1 t2 H0 [->|H2]; [lia|].
    apply (absorbed_doubling pxs (qoi_encoder_init t1) (qoi_encoder_init t2));
      simpl; try assumption.
    now apply near_refl.
Qed.

Lemma absorbed_monotone_doubling_witness :
  let pxs := [mk_rgba 3 0 0 255; mk_rgba 5 0 0 255; mk_rgba 1 0 0 255] in
  qoi_px_near (mk_rgba 3 0 0 255) (mk_rgba 5 0 0 255) 3 = true /\
  (absorbed (qoi_encoder_init 1) pxs <= absorbed (qoi_encoder_init 2) pxs)%nat /\
  (absorbed (qoi_encoder_init 0) pxs <= absorbed (qoi_encoder_init 3) pxs)%nat.
Proof.
  cbv zeta; split; [|split].
  - apply (proj1 absorbed_monotone_doubling _ _ 2 3); [lia | reflexivity].
  - apply (proj2 absorbed_monotone_doubling); [lia | right; lia].
  - apply (proj2 absorbed_monotone_doubling); [lia | right; lia].
Defined.

(** C4 fails as stated: between thresholds 2 and 3 the count of merged
    pixels drops from 2 to 1 on the red values 3, 5, 1.  At threshold 3
    the first pixel is merged into the run of the initial pixel, so the
    anchor stays at 0 and the next two pixels are far from the anchor in
    turn; at threshold 2 the first pixel becomes the anchor and the next
    two are near it. *)
Lemma absorbed_not_monotone :
  let pxs := [mk_rgba 3 0 0 255; mk_rgba 5 0 0 255; mk_rgba 1 0 0 255] in
  0 <= 2 <= 3 /\
  absorbed (qoi_encoder_init 2) pxs = 2%nat /\
  absorbed (qoi_encoder_init 3) pxs = 1%nat /\
  run_lengths (qoi_opcodes (encode_pixels 2 pxs)) = [2] /\
  run_lengths (qoi_opcodes (encode_pixels 3 pxs)) = [1] /\
  ~ (absorbed (qoi_encoder_init 2) pxs
     <= absorbed (qoi_encoder_init 3) pxs)%nat.
Proof.
  cbv zeta; repeat split; try reflexivity; try lia.
  vm_compute; lia.
Qed.

(** C5 (as the code has it).  At a threshold of at least 0, 100 equal
    pixels [p] give exactly two RUN opcodes, neither for more than 62
    pixels.  When [p] passes the near test against the initial previous
    pixel (0,0,0,255) the stream is RUN 62, RUN 38; otherwise the first
    pixel gets an opcode of its own, not a RUN, and the other 99 are
    RUN 62, RUN 37. *)
Theorem run_cap_100 (p : qoi_rgba) (t : Z) :
  0 <= t ->
  let ops := qoi_opcodes (encode_pixels t (repeat p 100)) in
  ops = (if qoi_px_near p (mk_rgba 0 0 0 255) t
         then [RUN 61; RUN 37]
         else [pixel_op (qoi_encoder_init t) p; RUN 61; RUN 36]) /\
  is_run (pixel_op (qoi_encoder_init t) p) = false /\
  run_lengths ops = (if qoi_px_near p (mk_rgba 0 0 0 255) t
                     then [62; 38] else [62; 37]) /\
  length (filter is_run ops) = 2%nat /\
  Forall (fun n => n <= 62) (run_lengths ops).
Proof.
  intros Ht; cbv zeta.
  pose proof (pixel_op_not_run (qoi_encoder_init t) p) as Hop.
  assert (Hops : qoi_opcodes (encode_pixels t (repeat p 100)) =
                 if qoi_px_near p (mk_rgba 0 0 0 255) t
                 then [RUN 61; RUN 37]
                 else [pixel_op (qoi_encoder_init t) p; RUN 61; RUN 36]).
  { unfold encode_pixels.
    destruct (qoi_px_near p (mk_rgba 0 0 0 255) t) eqn:Hn.
    - unfold encode_from; rewrite write_pixels_near.
      + rewrite repeat_length; reflexivity.
      + apply Forall_forall; intros x Hx.
        apply repeat_spec in Hx; subst x; exact Hn.
    - change (repeat p 100) with (p :: repeat p 99).
      rewrite encode_from_cons.
      rewrite opcodes_write_far by (simpl; (lia || assumption)).
      change (flush_ops (run (qoi_encoder_init t))) with (@nil opcode).
      cbn [app]; f_equal.
      unfold encode_from; rewrite write_pixels_near.
      + rewrite repeat_length, write_pixel_far_run by (simpl; (lia || assumption)).
        reflexivity.
      + apply Forall_forall; intros x Hx.
        apply repeat_spec in Hx; subst x.
        rewrite write_pixel_prev, write_pixel_lossiness; simpl prev_px.
        simpl lossiness; rewrite Hn; now apply near_refl. }
  rewrite Hops; split; [reflexivity|]; split; [exact Hop|].
  destruct (qoi_px_near p (mk_rgba 0 0 0 255) t).
  - split; [reflexivity|]; split; [reflexivity|].
    repeat (apply Forall_cons; [simpl; lia|]); apply Forall_nil.
  - rewrite run_lengths_cons_other by exact Hop.
    cbn [filter]; rewrite Hop.
    split; [reflexivity|]; split; [reflexivity|].
    repeat (apply Forall_cons; [simpl; lia|]); apply Forall_nil.
Qed.

Lemma run_cap_100_witness :
  0 <= 3 /\
  run_lengths (qoi_opcodes (encode_pixels 3 (repeat (mk_rgba 2 1 0 255) 100)))
    = [62; 38] /\
  run_lengths (qoi_opcodes (encode_pixels 3 (repeat (mk_rgba 9 9 9 255) 100)))
    = [62; 37].
Proof.
  split; [lia|]; split.
  - exact (proj1 (proj2 (proj2
             (run_cap_100 (mk_rgba 2 1 0 255) 3 ltac:(lia))))).
  - exact (proj1 (proj2 (proj2
             (run_cap_100 (mk_rgba 9 9 9 255) 3 ltac:(lia))))).
Defined.

(** C5 fails as stated: 100 pixels (10,10,10,255) at threshold 0 give a
    LUMA opcode for the first pixel and RUN opcodes for 62 and 37 pixels,
    not 62 and 38. *)
Lemma run_cap_100_not_62_38 :
  let ops := qoi_opcodes (encode_pixels 0 (repeat (mk_rgba 10 10 10 255) 100)) in
  ops = [LUMA 42 8 8; RUN 61; RUN 36] /\
  run_lengths ops = [62; 37] /\
  run_lengths ops <> [62; 38].
Proof.
  cbv zeta; split; [|split]; [vm_compute; reflexivity .. |].
  vm_compute; discriminate.
Qed.

(** C6 (as the code has it).  In every state that occurs, a pixel that
    fails the near test and whose cache slot holds an equal pixel is
    written as the flush of the pending run, if any, and then the single
    INDEX byte of its slot; the cache is not changed. *)
Theorem cache_hit_writes_index (lossy : Z) (enc : qoi_encoder) (px : qoi_rgba) :
  reachable lossy enc ->
  qoi_px_near px (prev_px enc) (lossiness enc) = false ->
  px_eqb (index_get (index enc) (qoi_color_hash px)) px = true ->
  snd (qoi_write_pixel enc px) = flush_bytes (run enc) ++ [qoi_color_hash px] /\
  (forall rest,
     qoi_opcodes (snd (qoi_write_pixel enc px) ++ rest)
     = flush_ops (run enc) ++ INDEX (qoi_color_hash px) :: qoi_opcodes rest) /\
  op_size (INDEX (qoi_color_hash px)) = 1 /\
  index (fst (qoi_write_pixel enc px)) = index enc /\
  prev_px (fst (qoi_write_pixel enc px)) = px.
Proof.
  intros Hreach Hn Hhit; pose proof (run_bounded _ _ Hreach) as Hr.
  destruct (index_byte _ (hash_range px)) as (Hb & _).
  repeat split.
  - now rewrite (write_pixel_far _ _ Hn), Hhit, Hb.
  - intros rest; rewrite opcodes_write_far by assumption.
    unfold pixel_op; now rewrite Hhit.
  - now rewrite (write_pixel_far _ _ Hn), Hhit.
  - now rewrite write_pixel_prev, Hn.
Qed.

Lemma cache_hit_writes_index_witness :
  let p := mk_rgba 1 2 3 255 in
  let q := mk_rgba 9 9 9 255 in
  let enc := fst (qoi_write_pixel
                    (fst (qoi_write_pixel (qoi_encoder_init 0) p)) q) in
  reachable 0 enc /\
  qoi_px_near p (prev_px enc) (lossiness enc) = false /\
  px_eqb (index_get (index enc) (qoi_color_hash p)) p = true /\
  snd (qoi_write_pixel enc p) = flush_bytes (run enc) ++ [qoi_color_hash p].
Proof.
  cbv zeta.
  assert (H : reachable 0
            (fst (qoi_write_pixel
                    (fst (qoi_write_pixel (qoi_encoder_init 0)
                            (mk_rgba 1 2 3 255))) (mk_rgba 9 9 9 255))))
    by (apply reach_step, reach_step, reach_init).
  split; [exact H|]; split; [reflexivity|]; split; [reflexivity|].
  exact (proj1 (cache_hit_writes_index 0 _ (mk_rgba 1 2 3 255) H eq_refl eq_refl)).
Defined.

(** C6 fails as stated: after (1,2,3,255) has been written, its cache slot
    holds it, and writing the same pixel again takes the near branch and
    writes no byte at all, so no INDEX opcode. *)
Lemma cache_hit_without_index :
  let p := mk_rgba 1 2 3 255 in
  let enc := fst (qoi_write_pixel (qoi_encoder_init 0) p) in
  reachable 0 enc /\
  px_eqb (index_get (index enc) (qoi_color_hash p)) p = true /\
  snd (qoi_write_pixel enc p) = [] /\
  qoi_opcodes (snd (qoi_write_pixel enc p)) = [].
Proof.
  cbv zeta; split; [apply reach_step, reach_init|].
  repeat split.
Qed.

(** C7 (as the code has it).  In every state that occurs, a pixel that
    differs from the previous pixel in alpha only fails the near test (it
    is not merged into a run) and is never written as DIFF or LUMA.  After
    the flush of the pending run it is written as INDEX when its cache
    slot holds an equal pixel, and as RGBA with its four raw bytes
    otherwise. *)
Theorem alpha_change_opcode (lossy : Z) (enc : qoi_encoder) (px : qoi_rgba) :
  reachable lossy enc ->
  r px = r (prev_px enc) -> g px = g (prev_px enc) ->
  b px = b (prev_px enc) -> a px <> a (prev_px enc) ->
  qoi_px_near px (prev_px enc) (lossiness enc) = false /\
  absorbed enc [px] = O /\
  (forall rest,
     qoi_opcodes (snd (qoi_write_pixel enc px) ++ rest)
     = flush_ops (run enc) ++ pixel_op enc px :: qoi_opcodes rest) /\
  pixel_op enc px
  = (if px_eqb (index_get (index enc) (qoi_color_hash px)) px
     then INDEX (qoi_color_hash px)
     else RGBA (r px) (g px) (b px) (a px)) /\
  is_diff_or_luma (pixel_op enc px) = false /\
  is_run (pixel_op enc px) = false /\
  (px_eqb (index_get (index enc) (qoi_color_hash px)) px = false ->
   snd (qoi_write_pixel enc px)
   = flush_bytes (run enc) ++ [QOI_OP_RGBA; r px; g px; b px; a px]).
Proof.
  intros Hreach Hr Hg Hb Ha; pose proof (run_bounded _ _ Hreach) as Hrun.
  assert (Hn : qoi_px_near px (prev_px enc) (lossiness enc) = false).
  { destruct (qoi_px_near _ _ _) eqn:E; [|reflexivity].
    apply near_spec in E; tauto. }
  assert (Hd : diff_op (prev_px enc) px = RGBA (r px) (g px) (b px) (a px)).
  { unfold diff_op.
    replace (a px - a (prev_px enc) =? 0) with false
      by (symmetry; apply Z.eqb_neq; lia).
    replace (a px =? a (prev_px enc)) with false
      by (symmetry; now apply Z.eqb_neq).
    reflexivity. }
  assert (Hb5 : diff_bytes (prev_px enc) px
                = [QOI_OP_RGBA; r px; g px; b px; a px]).
  { unfold diff_bytes.
    replace (a px - a (prev_px enc) =? 0) with false
      by (symmetry; apply Z.eqb_neq; lia).
    replace (a px =? a (prev_px enc)) with false
      by (symmetry; now apply Z.eqb_neq).
    reflexivity. }
  split; [exact Hn|]; split; [now rewrite absorbed_cons, Hn|].
  split; [intros rest; now apply opcodes_write_far|].
  unfold pixel_op; rewrite Hd.
  split; [reflexivity|].
  split; [destruct (px_eqb _ _); reflexivity|].
  split; [destruct (px_eqb _ _); reflexivity|].
  intros Hmiss; now rewrite (write_pixel_far _ _ Hn), Hmiss, Hb5.
Qed.

Lemma alpha_change_opcode_witness :
  let px := mk_rgba 0 0 0 7 in
  let enc := qoi_encoder_init 0 in
  reachable 0 enc /\
  (r px = r (prev_px enc) /\ g px = g (prev_px enc) /\
   b px = b (prev_px enc) /\ a px <> a (prev_px enc)) /\
  pixel_op enc px = RGBA 0 0 0 7 /\
  snd (qoi_write_pixel enc px) = [255; 0; 0; 0; 7].
Proof.
  cbv zeta.
  assert (Ha : a (mk_rgba 0 0 0 7) <> a (prev_px (qoi_encoder_init 0)))
    by (simpl; lia).
  split; [apply reach_init|].
  split; [repeat split; exact Ha|].
  pose proof (alpha_change_opcode 0 (qoi_encoder_init 0) (mk_rgba 0 0 0 7)
                (reach_init 0) eq_refl eq_refl eq_refl Ha) as H.
  split.
  - exact (proj1 (proj2 (proj2 (proj2 H)))).
  - exact (proj2 (proj2 (proj2 (proj2 (proj2 (proj2 H))))) eq_refl).
Defined.

(** C7 fails as stated: from the initial state the pixel (0,0,0,0) differs
    from the previous pixel (0,0,0,255) in alpha only, its cache slot 0
    holds the zero pixel, and the single byte written is INDEX 0, not RGBA
    with four raw bytes. *)
Lemma alpha_change_as_index :
  let px := mk_rgba 0 0 0 0 in
  let enc := qoi_encoder_init 0 in
  (r px = r (prev_px enc) /\ g px = g (prev_px enc) /\
   b px = b (prev_px enc) /\ a px <> a (prev_px enc)) /\
  snd (qoi_write_pixel enc px) = [0] /\
  qoi_opcodes (snd (qoi_write_pixel enc px)) = [INDEX 0] /\
  snd (qoi_write_pixel enc px) <> [QOI_OP_RGBA; r px; g px; b px; a px].
Proof.
  cbv zeta; repeat split; try (simpl; lia).
  vm_compute; discriminate.
Qed.

(** C8 (as the code has it).  The 2x1 four-channel image (10,10,10,255),
    (11,9,11,255) at threshold 0 gives the 14-byte header (2, 1, 4, 0), a
    two-byte LUMA opcode for the first pixel, a one-byte DIFF opcode for
    the second and the 8-byte footer: 25 bytes. *)
Theorem scenario_2x1 :
  let img := mk_image 2 1 4 [10; 10; 10; 255; 11; 9; 11; 255] in
  image_pixels img = [mk_rgba 10 10 10 255; mk_rgba 11 9 11 255] /\
  convert_to_qoi (Some img) true 0
  = Some (qoi_write_header 2 1 4 ++ [0xaa; 0x88] ++ [0x77] ++ qoi_write_footer) /\
  qoi_write_header 2 1 4 = [113; 111; 105; 102; 0; 0; 0; 2; 0; 0; 0; 1; 4; 0] /\
  qoi_opcodes ([0xaa; 0x88] ++ [0x77]) = [LUMA 42 8 8; DIFF 3 1 3] /\
  qoi_decode ([0xaa; 0x88] ++ [0x77])
  = [mk_rgba 10 10 10 255; mk_rgba 11 9 11 255] /\
  length (qoi_write_header 2 1 4 ++ [0xaa; 0x88] ++ [0x77] ++ qoi_write_footer)
  = 25%nat.
Proof. cbv zeta; repeat split; vm_compute; reflexivity. Qed.

(** C8 fails as stated: the output is not header, one byte, footer, and
    is not 23 bytes long; the first pixel takes two bytes of its own. *)
Lemma scenario_2x1_not_23_bytes :
  let img := mk_image 2 1 4 [10; 10; 10; 255; 11; 9; 11; 255] in
  (forall out, convert_to_qoi (Some img) true 0 = Some out ->
               length out <> 23%nat) /\
  (forall op, convert_to_qoi (Some img) true 0
              <> Some (qoi_write_header 2 1 4 ++ [op] ++ qoi_write_footer)).
Proof.
  cbv zeta; split.
  - intros out H; vm_compute in H; injection H as <-; simpl; lia.
  - intros op H; vm_compute in H; discriminate.
Qed.

(** C9 (as the code has it).  Whenever a file is written it is the 14-byte
    header, the opcode stream of the pixels and the 8-byte footer
    00 00 00 00 00 00 00 01.  The header is the bytes of "qoif", the width
    and the height as big-endian 32-bit numbers, the channel count of the
    loaded image as one byte (3 or 4 for a 3- or 4-channel image, but 1 or
    2 for a grey image) and a 0 byte. *)
Theorem framing (img : image) (lossy : Z) :
  exists hdr body,
    convert_to_qoi (Some img) true lossy
    = Some (hdr ++ body ++ qoi_write_footer) /\
    hdr = qoi_write_header (width img) (height img) (channels img) /\
    body = encode_pixels lossy (image_pixels img) /\
    length hdr = 14%nat /\
    firstn 14 (hdr ++ body ++ qoi_write_footer) = hdr /\
    skipn (length (hdr ++ body)) (hdr ++ body ++ qoi_write_footer)
    = [0; 0; 0; 0; 0; 0; 0; 1] /\
    firstn 4 hdr = [113; 111; 105; 102] /\
    be32 (nth 4 hdr 0) (nth 5 hdr 0) (nth 6 hdr 0) (nth 7 hdr 0)
    = width img mod 2 ^ 32 /\
    be32 (nth 8 hdr 0) (nth 9 hdr 0) (nth 10 hdr 0) (nth 11 hdr 0)
    = height img mod 2 ^ 32 /\
    nth 12 hdr 0 = u8 (channels img) /\
    (1 <= channels img <= 4 -> nth 12 hdr 0 = channels img) /\
    nth 13 hdr 0 = 0.
Proof.
  exists (qoi_write_header (width img) (height img) (channels img)),
         (encode_pixels lossy (image_pixels img)).
  split; [reflexivity|]; split; [reflexivity|]; split; [reflexivity|].
  split; [reflexivity|]; split; [reflexivity|].
  split.
  { rewrite app_assoc, skipn_app, skipn_all, Nat.sub_diag; reflexivity. }
  split; [reflexivity|].
  split; [apply be32_bytes|]; split; [apply be32_bytes|].
  split; [reflexivity|]; split; [|reflexivity].
  intros Hc; cbn [qoi_write_header nth]; apply u8_small; lia.
Qed.

Lemma framing_witness :
  1 <= channels (mk_image 2 1 4 [10; 10; 10; 255; 11; 9; 11; 255]) <= 4 /\
  exists hdr body,
    convert_to_qoi (Some (mk_image 2 1 4 [10; 10; 10; 255; 11; 9; 11; 255]))
                   true 0
    = Some (hdr ++ body ++ qoi_write_footer) /\
    nth 12 hdr 0 = 4.
Proof.
  assert (Hc : 1 <= channels (mk_image 2 1 4 [10; 10; 10; 255; 11; 9; 11; 255]) <= 4)
    by (simpl; lia).
  split; [exact Hc|].
  destruct (framing (mk_image 2 1 4 [10; 10; 10; 255; 11; 9; 11; 255]) 0)
    as (hdr & body & Hout & _ & _ & _ & _ & _ & _ & _ & _ & _ & H12 & _).
  exists hdr, body; split; [exact Hout | exact (H12 Hc)].
Defined.

(** C9 fails as stated: a 1x1 grey image (one channel) gives a header
    whose channel-count byte is 1, neither 3 nor 4. *)
Lemma framing_grey_channel_byte :
  let img := mk_image 1 1 1 [7] in
  exists out,
    convert_to_qoi (Some img) true 0 = Some out /\
    image_pixels img = [mk_rgba 7 7 7 255] /\
    nth 12 out 0 = 1 /\ nth 12 out 0 <> 3 /\ nth 12 out 0 <> 4.
Proof.
  cbv zeta; eexists; split; [vm_compute; reflexivity|].
  repeat split; simpl; lia.
Qed.

(** C10.  With a negative threshold the near test is false for every pair
    of pixels, two equal pixels included; so in every state that occurs
    the run counter is 0, no pixel of any sequence is merged into a run
    and the opcode stream of any sequence has no RUN opcode. *)
Theorem negative_threshold (t : Z) :
  t < 0 ->
  (forall p q, qoi_px_near p q t = false) /\
  (forall p, qoi_px_near p p t = false) /\
  (forall enc, reachable t enc -> run enc = 0) /\
  (forall pxs,
     run (fst (write_pixels (qoi_encoder_init t) pxs)) = 0 /\
     absorbed (qoi_encoder_init t) pxs = O /\
     filter is_run (qoi_opcodes (encode_pixels t pxs)) = []).
Proof.
  intros Ht; split; [|split; [|split]].
  - intros p q; now apply near_negative.
  - intros p; now apply near_negative.
  - induction 1 as [|enc px Hreach IH]; [reflexivity|].
    apply write_pixel_far_run; [lia|].
    apply near_negative; now rewrite (reachable_lossiness _ _ Hreach).
  - intros pxs; now apply negative_threshold_no_run.
Qed.

Lemma negative_threshold_witness :
  -1 < 0 /\
  qoi_px_near (mk_rgba 5 5 5 255) (mk_rgba 5 5 5 255) (-1) = false /\
  filter is_run
    (qoi_opcodes (encode_pixels (-1) (repeat (mk_rgba 5 5 5 255) 3))) = [].
Proof.
  assert (Ht : -1 < 0) by lia.
  split; [exact Ht|]; split.
  - exact (proj1 (negative_threshold (-1) Ht) _ _).
  - exact (proj2 (proj2 (proj2 (proj2 (proj2 (negative_threshold (-1) Ht)))
             (repeat (mk_rgba 5 5 5 255) 3)))).
Defined.

(** ** Further properties of the encoder *)

(** *** Lossy streams read back *)

Lemma in_sync_init_any t : in_sync (qoi_encoder_init t) qoi_decoder_init.
Proof.
  constructor; simpl; try lia; try reflexivity.
  - unfold px_ok; simpl; lia.
  - right; rewrite index_get_init; vm_compute; discriminate.
Qed.

Lemma reconstructed_length pxs : forall enc,
  length (reconstructed enc pxs) = length pxs.
Proof. induction pxs as [|px rest IH]; intros enc; simpl; auto. Qed.

(** At any threshold the reader gives back the pending run and then, for
    every pixel, the previous-pixel state the encoder held after it. *)
Lemma decode_encode_from_any pxs : forall enc d,
  in_sync enc d -> Forall px_ok pxs ->
  decode_ops d (qoi_opcodes (encode_from enc pxs)) =
  repeat (prev_px enc) (Z.to_nat (run enc)) ++ reconstructed enc pxs.
Proof.
  induction pxs as [|px rest IH]; intros enc d Hs Hok.
  - rewrite encode_from_nil, <- (app_nil_r (flush_bytes _)).
    rewrite opcodes_flush by apply (sync_run _ _ Hs).
    destruct (in_sync_flush _ _ Hs) as (d1 & _ & Hd).
    rewrite Hd; reflexivity.
  - inversion Hok as [|? ? Hpx Hrest]; subst.
    pose proof (sync_run _ _ Hs) as Hr.
    rewrite encode_from_cons; cbn [reconstructed].
    rewrite write_pixel_prev.
    destruct (qoi_px_near px (prev_px enc) (lossiness enc)) eqn:Hn.
    + rewrite (write_pixel_near _ _ Hn).
      destruct (run enc + 1 =? 62) eqn:E; cbn [fst snd app].
      * apply Z.eqb_eq in E.
        rewrite opcodes_run_byte, decode_ops_cons, decode_run_op by lia.
        rewrite (IH (set_run enc 0) (fst (decode_op d (RUN 61))));
          [| apply in_sync_set_run; [now apply in_sync_run_op | lia]
           | assumption ].
        rewrite (sync_px _ _ Hs); cbn [set_run run prev_px].
        change (Z.to_nat 0) with O; cbn [repeat app].
        replace (run enc) with 61 by lia.
        now rewrite repeat_succ_app by lia.
      * apply Z.eqb_neq in E.
        rewrite (IH (set_run enc (run enc + 1)) d);
          [| apply in_sync_set_run; [assumption | lia] | assumption ].
        cbn [set_run run prev_px]; now rewrite repeat_succ_app by lia.
    + rewrite opcodes_write_far by assumption.
      destruct (in_sync_flush _ _ Hs) as (d1 & Hs1 & Hd); rewrite Hd.
      f_equal.
      destruct (in_sync_pixel_op _ _ px Hs1 Hpx) as (Hs2 & Hout).
      change (pixel_op (set_run enc 0) px) with (pixel_op enc px) in *.
      rewrite decode_ops_cons, Hout.
      cbn [set_run index lossiness] in Hs2.
      rewrite (write_pixel_far _ _ Hn).
      replace (if 0 <? run enc then 0 else run enc) with 0
        by (destruct (0 <? run enc) eqn:E; [reflexivity | apply Z.ltb_ge in E; lia]).
      destruct (px_eqb (index_get (index enc) (qoi_color_hash px)) px);
        cbn [fst]; rewrite (IH _ _ Hs2 Hrest); reflexivity.
Qed.

Lemma reconstructed_near pxs : forall enc,
  0 <= lossiness enc ->
  Forall2 (fun px q => qoi_px_near px q (lossiness enc) = true)
          pxs (reconstructed enc pxs).
Proof.
  induction pxs as [|px rest IH]; intros enc Ht; cbn [reconstructed];
    constructor.
  - rewrite write_pixel_prev.
    destruct (qoi_px_near px (prev_px enc) (lossiness enc)) eqn:Hn;
      [exact Hn | now apply near_refl].
  - rewrite <- (write_pixel_lossiness enc px).
    apply IH; now rewrite write_pixel_lossiness.
Qed.

Lemma reconstructed_exact pxs : forall enc,
  lossiness enc <= 0 -> reconstructed enc pxs = pxs.
Proof.
  induction pxs as [|px rest IH]; intros enc Ht; cbn [reconstructed];
    [reflexivity|].
  rewrite IH by now rewrite write_pixel_lossiness.
  f_equal; rewrite write_pixel_prev.
  destruct (qoi_px_near px (prev_px enc) (lossiness enc)) eqn:Hn;
    [|reflexivity].
  symmetry; apply near_zero; now apply (near_mono _ _ (lossiness enc)).
Qed.

(** X1.  Bounded error: at a threshold of at least 0 the reference reader
    gives back as many pixels as were written, and every pixel it gives
    back has the alpha of the original and colour channels within the
    threshold of the original's.  The error does not build up along a run,
    since every merged pixel was compared with the anchor. *)
Theorem lossy_error_bound (t : Z) (pxs : list qoi_rgba) :
  0 <= t -> Forall px_ok pxs ->
  qoi_decode (encode_pixels t pxs) = reconstructed (qoi_encoder_init t) pxs /\
  length (qoi_decode (encode_pixels t pxs)) = length pxs /\
  Forall2 (fun px q => Z.abs (r px - r q) <= t /\ Z.abs (g px - g q) <= t /\
                       Z.abs (b px - b q) <= t /\ a px = a q)
          pxs (qoi_decode (encode_pixels t pxs)).
Proof.
  intros Ht Hok.
  assert (Hd : qoi_decode (encode_pixels t pxs)
               = reconstructed (qoi_encoder_init t) pxs).
  { unfold qoi_decode, encode_pixels.
    now rewrite (decode_encode_from_any pxs _ _ (in_sync_init_any t) Hok). }
  rewrite Hd; split; [reflexivity|]; split; [apply reconstructed_length|].
  pose proof (reconstructed_near pxs (qoi_encoder_init t) Ht) as Hn.
  simpl lossiness in Hn.
  eapply Forall2_impl; [|exact Hn].
  intros px q Hpq; now apply near_spec.
Qed.

Lemma lossy_error_bound_witness :
  let pxs := [mk_rgba 3 0 0 255; mk_rgba 5 1 0 255; mk_rgba 1 0 2 255;
              mk_rgba 9 9 9 255; mk_rgba 9 9 9 7] in
  0 <= 2 /\ Forall px_ok pxs /\
  qoi_decode (encode_pixels 2 pxs)
  = [mk_rgba 3 0 0 255; mk_rgba 3 0 0 255; mk_rgba 3 0 0 255;
     mk_rgba 9 9 9 255; mk_rgba 9 9 9 7].
Proof.
  cbv zeta.
  assert (Ht : 0 <= 2) by lia.
  assert (H : Forall px_ok
                [mk_rgba 3 0 0 255; mk_rgba 5 1 0 255; mk_rgba 1 0 2 255;
                 mk_rgba 9 9 9 255; mk_rgba 9 9 9 7])
    by (repeat (constructor; [unfold px_ok; simpl; lia|]); constructor).
  split; [exact Ht|]; split; [exact H|].
  exact (proj1 (lossy_error_bound 2 _ Ht H)).
Defined.

(** X2.  A threshold of 0 or below is lossless: the reference reader gives
    back exactly the pixels written (below 0 no pixel is ever merged, not
    even a repeated one). *)
Theorem nonpositive_threshold_lossless (t : Z) (pxs : list qoi_rgba) :
  t <= 0 -> Forall px_ok pxs -> qoi_decode (encode_pixels t pxs) = pxs.
Proof.
  intros Ht Hok; unfold qoi_decode, encode_pixels.
  rewrite (decode_encode_from_any pxs _ _ (in_sync_init_any t) Hok).
  now rewrite reconstructed_exact.
Qed.

Lemma nonpositive_threshold_lossless_witness :
  let pxs := [mk_rgba 0 0 0 255; mk_rgba 7 7 7 255; mk_rgba 7 7 7 255;
              mk_rgba 8 7 7 0] in
  -5 <= 0 /\ Forall px_ok pxs /\ qoi_decode (encode_pixels (-5) pxs) = pxs.
Proof.
  cbv zeta.
  assert (Ht : -5 <= 0) by lia.
  assert (H : Forall px_ok
                [mk_rgba 0 0 0 255; mk_rgba 7 7 7 255; mk_rgba 7 7 7 255;
                 mk_rgba 8 7 7 0])
    by (repeat (constructor; [unfold px_ok; simpl; lia|]); constructor).
  split; [exact Ht|]; split; [exact H|].
  exact (nonpositive_threshold_lossless (-5) _ Ht H).
Defined.

(** *** Sizes *)

Lemma flush_bytes_length n :
  length (flush_bytes n) = if 0 <? n then 1%nat else 0%nat.
Proof. unfold flush_bytes; destruct (0 <? n); reflexivity. Qed.

Lemma diff_bytes_length prev px :
  (1 <= length (diff_bytes prev px) <= 5)%nat /\
  (a px = a prev -> (length (diff_bytes prev px) <= 4)%nat).
Proof.
  unfold diff_bytes.
  destruct (_ && _); [simpl; lia|].
  destruct (_ && _); [simpl; lia|].
  destruct (a px =? a prev) eqn:E; [simpl; lia|].
  apply Z.eqb_neq in E; simpl; split; [lia | intros; contradiction].
Qed.

Lemma diff_op_size prev px :
  op_size (diff_op prev px) = Z.of_nat (length (diff_bytes prev px)).
Proof.
  unfold diff_op, diff_bytes.
  repeat match goal with |- context [if ?c then _ else _] => destruct c end;
    reflexivity.
Qed.

Lemma diff_op_not_rgba prev px :
  a px = a prev -> is_rgba (diff_op prev px) = false.
Proof.
  intros Ha; unfold diff_op.
  destruct (_ && _); [reflexivity|].
  destruct (_ && _); [reflexivity|].
  now replace (a px =? a prev) with true by (symmetry; now apply Z.eqb_eq).
Qed.

Lemma write_pixel_length enc px :
  (length (snd (qoi_write_pixel enc px))
   + (if (0 <? run (fst (qoi_write_pixel enc px)))%Z then 1 else 0)
   <= 5 + (if (0 <? run enc)%Z then 1 else 0))%nat /\
  (a px = a (prev_px enc) ->
   (length (snd (qoi_write_pixel enc px))
    + (if (0 <? run (fst (qoi_write_pixel enc px)))%Z then 1 else 0)
    <= 4 + (if (0 <? run enc)%Z then 1 else 0))%nat).
Proof.
  destruct (qoi_px_near px (prev_px enc) (lossiness enc)) eqn:Hn.
  - rewrite (write_pixel_near _ _ Hn).
    destruct (run enc + 1 =? 62); cbn [fst snd set_run run length];
      repeat match goal with |- context [if ?c then _ else _] => destruct c end;
      split; intros; simpl; lia.
  - rewrite (write_pixel_far _ _ Hn).
    pose proof (diff_bytes_length (prev_px enc) px) as [Hd Hd4].
    destruct (px_eqb _ _); cbn [fst snd run];
      rewrite length_app, flush_bytes_length;
      destruct (0 <? run enc) eqn:E; cbn [Z.ltb Z.compare length];
      rewrite ?E; split; intros; try specialize (Hd4 ltac:(assumption)); lia.
Qed.

Lemma encode_from_length pxs : forall enc,
  (length (encode_from enc pxs)
   <= 5 * length pxs + (if (0 <? run enc)%Z then 1 else 0))%nat.
Proof.
  induction pxs as [|px rest IH]; intros enc.
  - rewrite encode_from_nil, flush_bytes_length; simpl; lia.
  - rewrite encode_from_cons, length_app; cbn [length].
    specialize (IH (fst (qoi_write_pixel enc px))).
    pose proof (proj1 (write_pixel_length enc px)); lia.
Qed.

Lemma encode_from_length_alpha pxs : forall enc,
  Forall (fun px => a px = a (prev_px enc)) pxs ->
  (length (encode_from enc pxs)
   <= 4 * length pxs + (if (0 <? run enc)%Z then 1 else 0))%nat.
Proof.
  induction pxs as [|px rest IH]; intros enc Hall.
  - rewrite encode_from_nil, flush_bytes_length; simpl; lia.
  - inversion Hall as [|? ? Ha Hrest]; subst.
    rewrite encode_from_cons, length_app; cbn [length].
    assert (Hp : a (prev_px (fst (qoi_write_pixel enc px))) = a (prev_px enc))
      by (rewrite write_pixel_prev; destruct (qoi_px_near _ _ _); auto).
    specialize (IH (fst (qoi_write_pixel enc px))).
    rewrite Hp in IH; specialize (IH Hrest).
    pose proof (proj2 (write_pixel_length enc px) Ha); lia.
Qed.

Lemma opcodes_no_rgba pxs : forall enc,
  0 <= run enc <= 61 ->
  Forall (fun px => a px = a (prev_px enc)) pxs ->
  Forall (fun op => is_rgba op = false) (qoi_opcodes (encode_from enc pxs)).
Proof.
  induction pxs as [|px rest IH]; intros enc Hr Hall.
  - rewrite encode_from_nil, <- (app_nil_r (flush_bytes _)).
    rewrite opcodes_flush, app_nil_r by assumption.
    unfold flush_ops; destruct (0 <? run enc); repeat constructor.
  - inversion Hall as [|? ? Ha Hrest]; subst.
    assert (Hp : a (prev_px (fst (qoi_write_pixel enc px))) = a (prev_px enc))
      by (rewrite write_pixel_prev; destruct (qoi_px_near _ _ _); auto).
    pose proof (IH (fst (qoi_write_pixel enc px)) (write_pixel_run _ px Hr)) as IH'.
    rewrite Hp in IH'; specialize (IH' Hrest).
    rewrite encode_from_cons.
    destruct (qoi_px_near px (prev_px enc) (lossiness enc)) eqn:Hn.
    + rewrite (write_pixel_near _ _ Hn) in *.
      destruct (run enc + 1 =? 62) eqn:E; cbn [fst snd app] in *;
        [|exact IH'].
      apply Z.eqb_eq in E; rewrite opcodes_run_byte by lia.
      constructor; [reflexivity | exact IH'].
    + rewrite opcodes_write_far by assumption.
      apply Forall_app; split.
      * unfold flush_ops; destruct (0 <? run enc); repeat constructor.
      * constructor; [|exact IH'].
        unfold pixel_op; destruct (px_eqb _ _); [reflexivity|].
        now apply diff_op_not_rgba.
Qed.

Lemma image_pixels_length img :
  length (image_pixels img) = Z.to_nat (width img * height img).
Proof. unfold image_pixels; now rewrite length_map, length_seq. Qed.

Lemma image_pixels_alpha img :
  channels img <> 4 -> Forall (fun px => a px = 255) (image_pixels img).
Proof.
  intros Hc; apply Forall_forall; intros px Hin.
  unfold image_pixels in Hin; apply in_map_iff in Hin as (i & <- & _).
  unfold load_pixel; cbn [a].
  now replace (channels img =? 4) with false by (symmetry; now apply Z.eqb_neq).
Qed.

(** X3.  Worst-case size: a pixel sequence takes at most 5 bytes a pixel,
    so a written file has at least 22 bytes (header and footer alone when
    the image has no pixels) and at most 22 + 5 * width * height. *)
Theorem encoded_size_bound (img : image) (t : Z) (pxs : list qoi_rgba) :
  (length (encode_pixels t pxs) <= 5 * length pxs)%nat /\
  exists out,
    convert_to_qoi (Some img) true t = Some out /\
    (22 <= length out <= 22 + 5 * Z.to_nat (width img * height img))%nat.
Proof.
  split.
  - pose proof (encode_from_length pxs (qoi_encoder_init t)) as H.
    unfold encode_pixels; simpl in H |- *; lia.
  - eexists; split; [reflexivity|].
    rewrite !length_app.
    pose proof (encode_from_length (image_pixels img) (qoi_encoder_init t)) as H.
    rewrite image_pixels_length in H.
    unfold encode_pixels; simpl in H |- *; lia.
Qed.

(** X4.  An image that does not have four channels is loaded with alpha
    255 in every pixel, so its stream has no RGBA opcode and takes at most
    4 bytes a pixel. *)
Theorem opaque_image_stream (img : image) (t : Z) :
  channels img <> 4 ->
  Forall (fun px => a px = 255) (image_pixels img) /\
  Forall (fun op => is_rgba op = false)
         (qoi_opcodes (encode_pixels t (image_pixels img))) /\
  (length (encode_pixels t (image_pixels img))
   <= 4 * Z.to_nat (width img * height img))%nat.
Proof.
  intros Hc; pose proof (image_pixels_alpha img Hc) as Ha.
  split; [exact Ha|]; split.
  - apply opcodes_no_rgba; [simpl; lia | exact Ha].
  - pose proof (encode_from_length_alpha (image_pixels img)
                  (qoi_encoder_init t) Ha) as H.
    rewrite image_pixels_length in H.
    unfold encode_pixels; simpl in H |- *; lia.
Qed.

Lemma opaque_image_stream_witness :
  let img := mk_image 2 1 3 [200; 10; 10; 10; 200; 90] in
  channels img <> 4 /\
  Forall (fun op => is_rgba op = false)
         (qoi_opcodes (encode_pixels 0 (image_pixels img))).
Proof.
  cbv zeta.
  assert (Hc : channels (mk_image 2 1 3 [200; 10; 10; 10; 200; 90]) <> 4)
    by (simpl; lia).
  split; [exact Hc|].
  exact (proj1 (proj2 (opaque_image_stream _ 0 Hc))).
Defined.

(** *** Every pixel is accounted for *)

Lemma sum_sizes_app l1 l2 :
  sum_Z (map op_size (l1 ++ l2))
  = sum_Z (map op_size l1) + sum_Z (map op_size l2).
Proof. now rewrite map_app, sum_Z_app. Qed.

Lemma flush_ops_size n :
  sum_Z (map op_size (flush_ops n)) = Z.of_nat (length (flush_bytes n)).
Proof. unfold flush_ops, flush_bytes; destruct (0 <? n); reflexivity. Qed.

Lemma flush_ops_no_pixel_op n :
  filter (fun op => negb (is_run op)) (flush_ops n) = [].
Proof. unfold flush_ops; destruct (0 <? n); reflexivity. Qed.

(** The stream is a sequence of whole opcodes, and its opcodes other than
    RUN are as many as the pixels that failed the near test. *)
Lemma stream_accounting pxs : forall enc,
  0 <= run enc <= 61 ->
  sum_Z (map op_size (qoi_opcodes (encode_from enc pxs)))
    = Z.of_nat (length (encode_from enc pxs)) /\
  (length (filter (fun op => negb (is_run op))
                  (qoi_opcodes (encode_from enc pxs)))
   + absorbed enc pxs = length pxs)%nat.
Proof.
  induction pxs as [|px rest IH]; intros enc Hr.
  - rewrite encode_from_nil, <- (app_nil_r (flush_bytes _)).
    rewrite opcodes_flush, !app_nil_r by assumption.
    now rewrite flush_ops_size, flush_ops_no_pixel_op.
  - destruct (IH _ (write_pixel_run enc px Hr)) as [IHs IHc].
    rewrite encode_from_cons, absorbed_cons, length_app, Nat2Z.inj_add.
    destruct (qoi_px_near px (prev_px enc) (lossiness enc)) eqn:Hn.
    + rewrite (write_pixel_near _ _ Hn) in *.
      destruct (run enc + 1 =? 62) eqn:E; cbn [fst snd app length] in *.
      * apply Z.eqb_eq in E; rewrite opcodes_run_byte by lia.
        cbn [map filter is_run negb op_size]; rewrite sum_Z_cons, IHs.
        split; lia.
      * split; [rewrite IHs|]; lia.
    + rewrite opcodes_write_far by assumption.
      rewrite sum_sizes_app, filter_app, flush_ops_no_pixel_op, flush_ops_size.
      cbn [map filter app]; rewrite sum_Z_cons, IHs, pixel_op_not_run.
      cbn [negb length]; split; [|lia].
      rewrite (write_pixel_far _ _ Hn); unfold pixel_op.
      destruct (px_eqb _ _); cbn [snd]; rewrite length_app, Nat2Z.inj_add;
        [cbn [length op_size]; lia | rewrite diff_op_size; lia].
Qed.

(** X5.  Nothing is lost and nothing is cut: at any threshold the stream
    written for a pixel sequence splits into whole opcodes, and the number
    of opcodes other than RUN plus the lengths of the RUN opcodes is the
    number of pixels. *)
Theorem pixel_accounting (t : Z) (pxs : list qoi_rgba) :
  let ops := qoi_opcodes (encode_pixels t pxs) in
  sum_Z (map op_size ops) = Z.of_nat (length (encode_pixels t pxs)) /\
  Z.of_nat (length (filter (fun op => negb (is_run op)) ops))
  + sum_Z (run_lengths ops) = Z.of_nat (length pxs).
Proof.
  cbv zeta; unfold encode_pixels.
  assert (Hr : 0 <= run (qoi_encoder_init t) <= 61) by (simpl; lia).
  destruct (stream_accounting pxs _ Hr) as [Hs Hc].
  destruct (run_lengths_encode_from pxs _ Hr) as [Hl _].
  split; [exact Hs|]; rewrite Hl; simpl run; lia.
Qed.

(** *** The colour cache in the states that occur *)

Lemma write_pixel_index enc px :
  index (fst (qoi_write_pixel enc px)) =
  if qoi_px_near px (prev_px enc) (lossiness enc) then index enc
  else if px_eqb (index_get (index enc) (qoi_color_hash px)) px then index enc
  else index_set (index enc) (qoi_color_hash px) px.
Proof.
  unfold qoi_write_pixel.
  destruct (qoi_px_near _ _ _); simpl.
  - destruct (run enc + 1 =? 62); reflexivity.
  - destruct (px_eqb _ _); reflexivity.
Qed.

Lemma cache_length lossy enc :
  reachable lossy enc -> length (index enc) = 64%nat.
Proof.
  induction 1 as [|enc px _ IH]; [reflexivity|].
  rewrite write_pixel_index.
  destruct (qoi_px_near _ _ _); [assumption|].
  destruct (px_eqb _ _); [assumption | now rewrite index_set_length].
Qed.

(** X6.  The cache in every state that occurs: it has its 64 slots, every
    slot holds the zero pixel or a pixel that hashes to that slot, and the
    previous pixel is the initial (0,0,0,255) or sits in its own slot.  A
    pixel that fails the near test is in its slot afterwards and no other
    slot changes. *)
Theorem cache_invariant (lossy : Z) (enc : qoi_encoder) :
  reachable lossy enc ->
  length (index enc) = 64%nat /\
  (forall k, 0 <= k < 64 ->
     index_get (index enc) k = zero_px \/
     qoi_color_hash (index_get (index enc) k) = k) /\
  (prev_px enc = mk_rgba 0 0 0 255 \/
   index_get (index enc) (qoi_color_hash (prev_px enc)) = prev_px enc) /\
  (forall px, qoi_px_near px (prev_px enc) (lossiness enc) = false ->
     index_get (index (fst (qoi_write_pixel enc px))) (qoi_color_hash px) = px /\
     forall k, 0 <= k < 64 -> k <> qoi_color_hash px ->
       index_get (index (fst (qoi_write_pixel enc px))) k
       = index_get (index enc) k).
Proof.
  intros Hreach.
  assert (Hstep : forall e px, length (index e) = 64%nat ->
            qoi_px_near px (prev_px e) (lossiness e) = false ->
            index_get (index (fst (qoi_write_pixel e px))) (qoi_color_hash px) = px /\
            forall k, 0 <= k < 64 -> k <> qoi_color_hash px ->
              index_get (index (fst (qoi_write_pixel e px))) k
              = index_get (index e) k).
  { intros e px Hlen Hn; rewrite write_pixel_index, Hn.
    pose proof (hash_range px) as Hh.
    destruct (px_eqb _ _) eqn:E.
    - apply px_eqb_eq in E; auto.
    - split; [now apply index_get_set_same|].
      intros k Hk Hne; apply index_get_set_other; lia. }
  split; [now apply (cache_length lossy)|].
  split; [|split; [|intros px Hn; apply Hstep;
                     [now apply (cache_length lossy) | exact Hn]]].
  - induction Hreach as [|enc px Hreach IH]; intros k Hk.
    + left; apply index_get_init.
    + destruct (qoi_px_near px (prev_px enc) (lossiness enc)) eqn:Hn.
      * rewrite write_pixel_index, Hn; now apply IH.
      * destruct (Hstep enc px (cache_length _ _ Hreach) Hn) as [Hsame Hother].
        destruct (Z.eq_dec k (qoi_color_hash px)) as [->|Hne].
        -- right; now rewrite Hsame.
        -- rewrite Hother by assumption; now apply IH.
  - induction Hreach as [|enc px Hreach IH]; [left; reflexivity|].
    rewrite write_pixel_prev.
    destruct (qoi_px_near px (prev_px enc) (lossiness enc)) eqn:Hn.
    + rewrite write_pixel_index, Hn; exact IH.
    + right; apply (Hstep enc px (cache_length _ _ Hreach) Hn).
Qed.

Lemma cache_invariant_witness :
  let enc := fst (qoi_write_pixel (qoi_encoder_init 1) (mk_rgba 9 8 7 255)) in
  reachable 1 enc /\
  index_get (index enc) (qoi_color_hash (prev_px enc)) = mk_rgba 9 8 7 255 /\
  qoi_px_near (mk_rgba 20 8 7 255) (prev_px enc) (lossiness enc) = false /\
  index_get (index (fst (qoi_write_pixel enc (mk_rgba 20 8 7 255))))
            (qoi_color_hash (mk_rgba 20 8 7 255)) = mk_rgba 20 8 7 255.
Proof.
  cbv zeta.
  assert (H : reachable 1
                (fst (qoi_write_pixel (qoi_encoder_init 1) (mk_rgba 9 8 7 255))))
    by (apply reach_step, reach_init).
  split; [exact H|]; split; [reflexivity|]; split; [reflexivity|].
  exact (proj1 (proj2 (proj2 (proj2 (cache_invariant 1 _ H)))
                 (mk_rgba 20 8 7 255) eq_refl)).
Defined.

(** *** Long runs *)

Lemma near_steps_closed n : forall k,
  0 <= k <= 61 ->
  near_steps k n =
  ((k + Z.of_nat n) mod 62,
   repeat (QOI_OP_RUN + 61) (Z.to_nat ((k + Z.of_nat n) / 62))).
Proof.
  induction n as [|n IH]; intros k Hk.
  - cbn [near_steps]; rewrite Z.add_0_r, Z.mod_small, Z.div_small by lia.
    reflexivity.
  - rewrite near_steps_succ, Nat2Z.inj_succ.
    destruct (k + 1 =? 62) eqn:E.
    + apply Z.eqb_eq in E; rewrite (IH 0) by lia; cbn [fst snd].
      replace (k + Z.succ (Z.of_nat n)) with (0 + Z.of_nat n + 1 * 62) by lia.
      rewrite Z.mod_add, Z.div_add by lia.
      replace (Z.to_nat ((0 + Z.of_nat n) / 62 + 1))
        with (S (Z.to_nat ((0 + Z.of_nat n) / 62)))
        by (pose proof (Z.div_pos (0 + Z.of_nat n) 62); lia).
      reflexivity.
    + apply Z.eqb_neq in E; rewrite (IH (k + 1)) by lia.
      now replace (k + 1 + Z.of_nat n) with (k + Z.succ (Z.of_nat n)) by lia.
Qed.

Lemma encode_from_near pxs enc :
  0 <= run enc <= 61 ->
  Forall (fun px => qoi_px_near px (prev_px enc) (lossiness enc) = true) pxs ->
  write_pixels enc pxs =
  (set_run enc ((run enc + Z.of_nat (length pxs)) mod 62),
   repeat (QOI_OP_RUN + 61)
          (Z.to_nat ((run enc + Z.of_nat (length pxs)) / 62))) /\
  encode_from enc pxs =
  repeat (QOI_OP_RUN + 61) (Z.to_nat ((run enc + Z.of_nat (length pxs)) / 62))
  ++ flush_bytes ((run enc + Z.of_nat (length pxs)) mod 62).
Proof.
  intros Hr Hall.
  assert (H : write_pixels enc pxs =
    (set_run enc ((run enc + Z.of_nat (length pxs)) mod 62),
     repeat (QOI_OP_RUN + 61)
            (Z.to_nat ((run enc + Z.of_nat (length pxs)) / 62))))
    by now rewrite (write_pixels_near _ _ Hall), near_steps_closed.
  split; [exact H|]; unfold encode_from; now rewrite H.
Qed.

Lemma reconstructed_all_near pxs : forall enc,
  Forall (fun px => qoi_px_near px (prev_px enc) (lossiness enc) = true) pxs ->
  reconstructed enc pxs = repeat (prev_px enc) (length pxs).
Proof.
  induction pxs as [|px rest IH]; intros enc Hall; [reflexivity|].
  inversion Hall as [|? ? Hn Hrest]; subst.
  cbn [reconstructed length repeat].
  assert (Hp : prev_px (fst (qoi_write_pixel enc px)) = prev_px enc)
    by now rewrite write_pixel_prev, Hn.
  rewrite IH, Hp; [reflexivity|].
  now rewrite Hp, write_pixel_lossiness.
Qed.

Lemma absorbed_all_near pxs : forall enc,
  Forall (fun px => qoi_px_near px (prev_px enc) (lossiness enc) = true) pxs ->
  absorbed enc pxs = length pxs.
Proof.
  induction pxs as [|px rest IH]; intros enc Hall; [reflexivity|].
  inversion Hall as [|? ? Hn Hrest]; subst.
  rewrite absorbed_cons, Hn; cbn [length Nat.add]; f_equal.
  apply IH; now rewrite write_pixel_prev, write_pixel_lossiness, Hn.
Qed.

(** X7.  In a state that occurs, [n] pixels in a row that pass the near
    test are written as one byte 0xFD (RUN of 62) for every time the
    counter reaches 62; the counter ends at [(run + n) mod 62], and at the
    end of the stream one more RUN byte is written when that is not 0. *)
Theorem run_stretch (lossy : Z) (enc : qoi_encoder) (pxs : list qoi_rgba) :
  reachable lossy enc ->
  Forall (fun px => qoi_px_near px (prev_px enc) (lossiness enc) = true) pxs ->
  let n := run enc + Z.of_nat (length pxs) in
  write_pixels enc pxs =
  (set_run enc (n mod 62), repeat 0xfd (Z.to_nat (n / 62))) /\
  encode_from enc pxs = repeat 0xfd (Z.to_nat (n / 62)) ++ flush_bytes (n mod 62).
Proof.
  intros Hreach Hall; cbv zeta.
  exact (encode_from_near pxs enc (run_bounded _ _ Hreach) Hall).
Qed.

Lemma run_stretch_witness :
  let pxs := repeat (mk_rgba 1 0 1 255) 130 in
  reachable 1 (qoi_encoder_init 1) /\
  Forall (fun px => qoi_px_near px (mk_rgba 0 0 0 255) 1 = true) pxs /\
  encode_pixels 1 pxs = [0xfd; 0xfd; 0xc5].
Proof.
  cbv zeta.
  assert (Hall : Forall (fun px => qoi_px_near px (mk_rgba 0 0 0 255) 1 = true)
                        (repeat (mk_rgba 1 0 1 255) 130)).
  { apply Forall_forall; intros x Hx.
    apply repeat_spec in Hx; subst x; reflexivity. }
  split; [apply reach_init|]; split; [exact Hall|].
  exact (proj2 (run_stretch 1 (qoi_encoder_init 1) _ (reach_init 1) Hall)).
Defined.

(** X8.  A threshold of 255 or more turns an opaque image black: every
    pixel with alpha 255 passes the near test against the initial previous
    pixel (0,0,0,255), which stays the anchor for the whole stream, so the
    stream is RUN opcodes only and reads back as that many copies of
    (0,0,0,255). *)
Theorem saturated_threshold (t : Z) (pxs : list qoi_rgba) :
  255 <= t -> Forall px_ok pxs -> Forall (fun px => a px = 255) pxs ->
  let n := Z.of_nat (length pxs) in
  encode_pixels t pxs = repeat 0xfd (Z.to_nat (n / 62)) ++ flush_bytes (n mod 62) /\
  absorbed (qoi_encoder_init t) pxs = length pxs /\
  qoi_decode (encode_pixels t pxs) = repeat (mk_rgba 0 0 0 255) (length pxs).
Proof.
  intros Ht Hok Ha; cbv zeta.
  assert (Hall : Forall (fun px => qoi_px_near px
                   (prev_px (qoi_encoder_init t))
                   (lossiness (qoi_encoder_init t)) = true) pxs).
  { apply Forall_forall; intros px Hin.
    pose proof (proj1 (Forall_forall _ _) Hok px Hin) as (Hr & Hg & Hb & _).
    pose proof (proj1 (Forall_forall _ _) Ha px Hin) as Hal.
    cbv beta in Hal.
    apply near_spec; cbn [qoi_encoder_init prev_px lossiness r g b a]; lia. }
  assert (Hrun : 0 <= run (qoi_encoder_init t) <= 61) by (simpl; lia).
  split; [exact (proj2 (encode_from_near pxs _ Hrun Hall))|].
  split; [now apply absorbed_all_near|].
  - unfold qoi_decode, encode_pixels.
    rewrite (decode_encode_from_any pxs _ _ (in_sync_init_any t) Hok).
    now rewrite (reconstructed_all_near pxs _ Hall).
Qed.

Lemma saturated_threshold_witness :
  let pxs := [mk_rgba 255 0 9 255; mk_rgba 1 200 3 255; mk_rgba 7 7 7 255] in
  255 <= 300 /\ Forall px_ok pxs /\ Forall (fun px => a px = 255) pxs /\
  qoi_decode (encode_pixels 300 pxs) = repeat (mk_rgba 0 0 0 255) 3.
Proof.
  cbv zeta.
  assert (Ht : 255 <= 300) by lia.
  assert (Hok : Forall px_ok
            [mk_rgba 255 0 9 255; mk_rgba 1 200 3 255; mk_rgba 7 7 7 255])
    by (repeat (constructor; [unfold px_ok; simpl; lia|]); constructor).
  assert (Ha : Forall (fun px => a px = 255)
            [mk_rgba 255 0 9 255; mk_rgba 1 200 3 255; mk_rgba 7 7 7 255])
    by (repeat (constructor; [reflexivity|]); constructor).
  split; [exact Ht|]; split; [exact Hok|]; split; [exact Ha|].
  exact (proj2 (proj2 (saturated_threshold 300 _ Ht Hok Ha))).
Defined.

(** *** The near test as a distance *)

(** X9.  The near test behaves like a distance bound: at a threshold of at
    least 0 every pixel is near itself, nearness is symmetric, nearness at
    [s] and at [t] chains to nearness at [s + t], near pixels have the
    same alpha, and at threshold 0 near means equal. *)
Theorem near_test_distance :
  (forall p t, 0 <= t -> qoi_px_near p p t = true) /\
  (forall p q t, qoi_px_near p q t = qoi_px_near q p t) /\
  (forall p q u s t,
     qoi_px_near p q s = true -> qoi_px_near q u t = true ->
     qoi_px_near p u (s + t) = true) /\
  (forall p q t, qoi_px_near p q t = true -> a p = a q) /\
  (forall p q, qoi_px_near p q 0 = true <-> p = q).
Proof.
  split; [exact near_refl|]; split; [exact near_sym|].
  split; [intros p q u s t; apply near_trans|].
  split; [|exact near_zero].
  intros p q t H; now apply near_spec in H.
Qed.

Lemma near_test_distance_witness :
  qoi_px_near (mk_rgba 1 2 3 9) (mk_rgba 1 2 3 9) 0 = true /\
  qoi_px_near (mk_rgba 10 0 0 255) (mk_rgba 14 1 0 255) 5 = true /\
  a (mk_rgba 10 0 0 255) = a (mk_rgba 12 1 0 255).
Proof.
  split; [|split].
  - apply (proj1 near_test_distance); lia.
  - apply (proj1 (proj2 (proj2 near_test_distance)) _ (mk_rgba 12 1 0 255) _ 2 3);
      reflexivity.
  - apply (proj1 (proj2 (proj2 (proj2 near_test_distance))) _ _ 2); reflexivity.
Defined.

(** *** From the raster to the file and back *)

Lemma data_at_byte d i : Forall is_byte d -> is_byte (data_at d i).
Proof.
  intros Hd; unfold data_at.
  destruct (nth_in_or_default (Z.to_nat i) d 0) as [Hin | ->].
  - exact (proj1 (Forall_forall _ _) Hd _ Hin).
  - unfold is_byte; lia.
Qed.

Lemma image_pixels_ok img :
  Forall is_byte (data img) -> Forall px_ok (image_pixels img).
Proof.
  intros Hd; apply Forall_forall; intros px Hin.
  unfold image_pixels in Hin; apply in_map_iff in Hin as (i & <- & _).
  unfold load_pixel, px_ok; cbn [r g b a].
  repeat split; try apply data_at_byte; try assumption;
    destruct (channels img =? 4);
    try (apply data_at_byte; assumption); lia.
Qed.

Lemma flat_map_map {A B C} (f : A -> B) (h : B -> list C) (l : list A) :
  flat_map h (map f l) = flat_map (fun x => h (f x)) l.
Proof. induction l as [|x l IH]; simpl; [reflexivity | now rewrite IH]. Qed.

(** Reading a list four elements at a time gives the list back. *)
Lemma rows_of_four (d : list Z) : forall n,
  length d = (4 * n)%nat ->
  flat_map (fun i => [nth (4 * i) d 0; nth (4 * i + 1) d 0;
                      nth (4 * i + 2) d 0; nth (4 * i + 3) d 0])
           (seq 0 n) = d.
Proof.
  intros n; revert d; induction n as [|n IH]; intros d Hlen.
  - destruct d; [reflexivity | simpl in Hlen; lia].
  - destruct d as [|x0 [|x1 [|x2 [|x3 d']]]]; simpl in Hlen; try lia.
    cbn [seq flat_map]; rewrite <- seq_shift, flat_map_map.
    change (nth (4 * 0) (x0 :: x1 :: x2 :: x3 :: d') 0) with x0.
    change (nth (4 * 0 + 1) (x0 :: x1 :: x2 :: x3 :: d') 0) with x1.
    change (nth (4 * 0 + 2) (x0 :: x1 :: x2 :: x3 :: d') 0) with x2.
    change (nth (4 * 0 + 3) (x0 :: x1 :: x2 :: x3 :: d') 0) with x3.
    cbn [app]; do 4 f_equal.
    etransitivity; [|apply (IH d'); lia].
    apply flat_map_ext; intros i.
    replace (4 * S i)%nat with (S (S (S (S (4 * i))))) by lia.
    reflexivity.
Qed.

Lemma rgba_bytes_image img :
  channels img = 4 ->
  length (data img) = (4 * Z.to_nat (width img * height img))%nat ->
  rgba_bytes (image_pixels img) = data img.
Proof.
  intros Hc Hlen; unfold rgba_bytes, image_pixels.
  rewrite flat_map_map, <- (rows_of_four (data img) _ Hlen) at 1.
  apply flat_map_ext; intros i.
  unfold load_pixel, data_at; rewrite Hc; cbn [r g b a Z.ltb Z.eqb Z.compare Pos.compare Pos.compare_cont Pos.eqb].
  replace (Z.to_nat (Z.of_nat i * 4)) with (4 * i)%nat by lia.
  replace (Z.to_nat (Z.of_nat i * 4 + 1)) with (4 * i + 1)%nat by lia.
  replace (Z.to_nat (Z.of_nat i * 4 + 2)) with (4 * i + 2)%nat by lia.
  replace (Z.to_nat (Z.of_nat i * 4 + 3)) with (4 * i + 3)%nat by lia.
  reflexivity.
Qed.

(** X10.  From the raster to the file and back: for a loaded image whose
    data are bytes and a threshold of 0 or below, the opcode stream
    between the header and the footer of the file reads back as exactly
    the pixels of the image; for a four-channel image of
    4 * width * height bytes these are the bytes of the raster. *)
Theorem file_round_trip (img : image) (t : Z) :
  t <= 0 -> Forall is_byte (data img) ->
  exists body,
    convert_to_qoi (Some img) true t
    = Some (qoi_write_header (width img) (height img) (channels img)
            ++ body ++ qoi_write_footer) /\
    qoi_decode body = image_pixels img /\
    length (qoi_decode body) = Z.to_nat (width img * height img) /\
    (channels img = 4 ->
     length (data img) = (4 * Z.to_nat (width img * height img))%nat ->
     rgba_bytes (qoi_decode body) = data img).
Proof.
  intros Ht Hd; exists (encode_pixels t (image_pixels img)).
  assert (Hrt : qoi_decode (encode_pixels t (image_pixels img))
                = image_pixels img).
  { unfold qoi_decode, encode_pixels.
    rewrite (decode_encode_from_any _ _ _ (in_sync_init_any t)
               (image_pixels_ok img Hd)).
    now rewrite reconstructed_exact. }
  split; [reflexivity|]; rewrite Hrt.
  split; [reflexivity|]; split; [apply image_pixels_length|].
  apply rgba_bytes_image.
Qed.

Lemma file_round_trip_witness :
  let img := mk_image 2 1 4 [10; 10; 10; 255; 11; 9; 11; 255] in
  0 <= 0 /\ Forall is_byte (data img) /\
  exists body,
    convert_to_qoi (Some img) true 0
    = Some (qoi_write_header 2 1 4 ++ body ++ qoi_write_footer) /\
    rgba_bytes (qoi_decode body) = [10; 10; 10; 255; 11; 9; 11; 255].
Proof.
  cbv zeta.
  assert (Ht : 0 <= 0) by lia.
  assert (Hd : Forall is_byte
                 (data (mk_image 2 1 4 [10; 10; 10; 255; 11; 9; 11; 255])))
    by (repeat (constructor; [unfold is_byte; lia|]); constructor).
  split; [exact Ht|]; split; [exact Hd|].
  destruct (file_round_trip (mk_image 2 1 4 [10; 10; 10; 255; 11; 9; 11; 255])
              0 Ht Hd) as (body & Hout & _ & _ & Hraw).
  exists body; split; [exact Hout | exact (Hraw eq_refl eq_refl)].
Defined.

(** *** The command line *)

(** X11.  [main] exits with status 1 and writes nothing when it gets fewer
    than two arguments, and with status 0 in every other case, also when
    the image does not load or the output does not open and no file is
    written.  A file is written exactly when there are at least two
    arguments, the image loads and the output opens; it is the header, the
    stream at the threshold given by the third argument (0 without one)
    and the footer. *)
Theorem main_exit_status
    (stbi_load : String.string -> option image)
    (fopen_wb : String.string -> bool)
    (atoi : String.string -> Z) (argv : list String.string) :
  let res := main stbi_load fopen_wb atoi argv in
  let lossy := if (3 <? length argv)%nat then atoi (argv_at argv 3) else 0 in
  (fst res = 1 <-> (length argv < 3)%nat) /\
  (fst res = 0 <-> (3 <= length argv)%nat) /\
  ((length argv < 3)%nat -> snd res = None) /\
  ((3 <= length argv)%nat ->
   stbi_load (argv_at argv 1) = None \/ fopen_wb (argv_at argv 2) = false ->
   res = (0, None)) /\
  (forall out,
     snd res = Some out <->
     (3 <= length argv)%nat /\
     exists img,
       stbi_load (argv_at argv 1) = Some img /\
       fopen_wb (argv_at argv 2) = true /\
       out = qoi_write_header (width img) (height img) (channels img)
             ++ encode_pixels lossy (image_pixels img) ++ qoi_write_footer).
Proof.
  cbv zeta; unfold main.
  assert (Hl : (3 <? Z.of_nat (length argv)) = (3 <? length argv)%nat).
  { destruct (3 <? length argv)%nat eqn:E.
    - apply Nat.ltb_lt in E; apply Z.ltb_lt; lia.
    - apply Nat.ltb_ge in E; apply Z.ltb_ge; lia. }
  rewrite Hl.
  destruct (Z.of_nat (length argv) <? 3) eqn:E;
    [apply Z.ltb_lt in E | apply Z.ltb_ge in E]; cbn [fst snd].
  - repeat split; intros; try lia; try discriminate.
  - split; [split; intros; [discriminate | lia]|].
    split; [split; intros; [lia | reflexivity]|].
    split; [intros; lia|].
    split.
    + intros _ [H|H]; unfold convert_to_qoi; rewrite H; [reflexivity|].
      destruct (stbi_load (argv_at argv 1)); reflexivity.
    + intros out; unfold convert_to_qoi.
      destruct (stbi_load (argv_at argv 1)) as [img|].
      * destruct (fopen_wb (argv_at argv 2)).
        -- split.
           ++ intros H; injection H as <-.
              split; [lia|]; exists img; auto.
           ++ intros (_ & img' & Himg & _ & ->).
              injection Himg as <-; reflexivity.
        -- split; [discriminate|].
           intros (_ & img' & _ & Hf & _); discriminate.
      * split; [discriminate|].
        intros (_ & img' & Himg & _); discriminate.
Qed.

Lemma main_exit_status_witness :
  let load := fun _ : String.string => @None image in
  let opens := fun _ : String.string => true in
  let atoi := fun _ : String.string => 7 in
  let argv := [String.EmptyString; String.EmptyString; String.EmptyString] in
  (3 <= length argv)%nat /\
  main load opens atoi argv = (0, None).
Proof.
  cbv zeta.
  assert (H3 : (3 <= length [String.EmptyString; String.EmptyString;
                             String.EmptyString])%nat) by (simpl; lia).
  split; [exact H3|].
  exact (proj1 (proj2 (proj2 (proj2
           (main_exit_status (fun _ => None) (fun _ => true) (fun _ => 7)
              [String.EmptyString; String.EmptyString; String.EmptyString]))))
           H3 (or_introl eq_refl)).
Defined.

(** *** Encoding what was read back *)

(** Encoding the pixels a stream stands for writes the same stream: a
    merged pixel is replaced by its anchor, which takes the same branch. *)
Lemma encode_from_reconstructed pxs : forall enc,
  encode_from enc (reconstructed enc pxs) = encode_from enc pxs /\
  reconstructed enc (reconstructed enc pxs) = reconstructed enc pxs.
Proof.
  induction pxs as [|px rest IH]; intros enc; [split; reflexivity|].
  cbn [reconstructed]; rewrite write_pixel_prev.
  destruct (qoi_px_near px (prev_px enc) (lossiness enc)) eqn:Hn.
  - assert (Ht : 0 <= lossiness enc).
    { apply near_spec in Hn; pose proof (Z.abs_nonneg (r px - r (prev_px enc))); lia. }
    pose proof (near_refl (prev_px enc) _ Ht) as Hpp.
    assert (Hw : qoi_write_pixel enc (prev_px enc) = qoi_write_pixel enc px)
      by now rewrite (write_pixel_near _ _ Hn), (write_pixel_near _ _ Hpp).
    rewrite !encode_from_cons; cbn [reconstructed]; rewrite Hw.
    destruct (IH (fst (qoi_write_pixel enc px))) as [IH1 IH2].
    rewrite IH1, IH2, write_pixel_prev, Hn; split; reflexivity.
  - rewrite !encode_from_cons; cbn [reconstructed].
    destruct (IH (fst (qoi_write_pixel enc px))) as [IH1 IH2].
    rewrite IH1, IH2, write_pixel_prev, Hn; split; reflexivity.
Qed.

(** X12.  No loss the second time: at any threshold, reading a stream
    back and encoding the result at the same threshold writes the same
    stream byte for byte, so the pixels read back do not change again. *)
Theorem reencode_same_stream (t : Z) (pxs : list qoi_rgba) :
  Forall px_ok pxs ->
  encode_pixels t (qoi_decode (encode_pixels t pxs)) = encode_pixels t pxs /\
  qoi_decode (encode_pixels t (qoi_decode (encode_pixels t pxs)))
  = qoi_decode (encode_pixels t pxs).
Proof.
  intros Hok.
  assert (Hd : qoi_decode (encode_pixels t pxs)
               = reconstructed (qoi_encoder_init t) pxs).
  { unfold qoi_decode, encode_pixels.
    now rewrite (decode_encode_from_any pxs _ _ (in_sync_init_any t) Hok). }
  assert (He : encode_pixels t (qoi_decode (encode_pixels t pxs))
               = encode_pixels t pxs).
  { rewrite Hd; unfold encode_pixels.
    apply (encode_from_reconstructed pxs (qoi_encoder_init t)). }
  split; [exact He | now rewrite He].
Qed.

Lemma reencode_same_stream_witness :
  let pxs := [mk_rgba 3 0 0 255; mk_rgba 5 1 0 255; mk_rgba 1 0 2 255;
              mk_rgba 9 9 9 255; mk_rgba 9 9 9 7] in
  Forall px_ok pxs /\
  encode_pixels 2 (qoi_decode (encode_pixels 2 pxs)) = encode_pixels 2 pxs.
Proof.
  cbv zeta.
  assert (H : Forall px_ok
                [mk_rgba 3 0 0 255; mk_rgba 5 1 0 255; mk_rgba 1 0 2 255;
                 mk_rgba 9 9 9 255; mk_rgba 9 9 9 7])
    by (repeat (constructor; [unfold px_ok; simpl; lia|]); constructor).
  split; [exact H | exact (proj1 (reencode_same_stream 2 _ H))].
Defined.
